(** * shhoook: the request pipeline of [src/main.go]

    A shallow embedding of the HTTP-to-command gateway: endpoint loading
    ([parseAuth], [compileURI], [mustEndpointFromFile], [loadEndpoints]),
    routing ([pathVars] and the dispatch handler of [main]), parameter
    resolution ([toString], [mergeParams]) and template expansion
    ([applyTemplate]).

    Go strings are byte strings: [string] with one [ascii] per byte.  Go maps
    are [gmap]s.  The pieces of the Go standard library the program calls are
    modelled next to the function that calls them, each under the name it has
    in Go. *)

From Stdlib Require Import ZArith Ascii String List Floats Sorted Permutation.
From stdpp Require Import gmap strings list fin_maps.

Open Scope string_scope.

(** ** Package [strings] *)

Module strings.

(** [s[:n]] and [s[n:]].  Go panics when [n] exceeds [len(s)]; the callers
    below only slice at indices that [Index] returned. *)
Fixpoint take (n : nat) (s : string) : string :=
  match n, s with
  | S n', String c s' => String c (take n' s')
  | _, _ => ""
  end.

Fixpoint drop (n : nat) (s : string) : string :=
  match n, s with
  | S n', String _ s' => drop n' s'
  | _, _ => s
  end.

(** [strings.Index(s, sub)]; [None] stands for Go's [-1]. *)
Definition Index (s sub : string) : option nat := String.index 0 sub s.

Definition HasPrefix (s p : string) : bool := String.prefix p s.

Definition TrimPrefix (s p : string) : string :=
  if HasPrefix s p then drop (String.length p) s else s.

(** [strings.Split(s, sep)] for a one-byte separator. *)
Fixpoint Split (s : string) (sep : ascii) : list string :=
  match s with
  | "" => [""]
  | String c s' =>
      if Ascii.eqb c sep then "" :: Split s' sep
      else match Split s' sep with
           | hd :: tl => String c hd :: tl
           | [] => [String c ""]
           end
  end.

(** [strings.SplitN(s, sep, n)] for a one-byte separator and [n >= 0]. *)
Fixpoint SplitN (s : string) (sep : ascii) (n : nat) : list string :=
  match n with
  | 0 => []
  | 1 => [s]
  | S n' =>
      match Index s (String sep "") with
      | None => [s]
      | Some i => take i s :: SplitN (drop (S i) s) sep n'
      end
  end.

Definition rev (s : string) : string := String.rev s.

Fixpoint trimLeftBytes (cutset : string) (s : string) : string :=
  match s with
  | String c s' =>
      match Index cutset (String c "") with
      | Some _ => trimLeftBytes cutset s'
      | None => s
      end
  | "" => ""
  end.

(** [strings.TrimRight(s, cutset)] for an ASCII cutset. *)
Definition TrimRight (s cutset : string) : string :=
  rev (trimLeftBytes cutset (rev s)).

(** The white space of [unicode.IsSpace], each in its UTF-8 encoding:
    tab, LF, VT, FF, CR, space, U+0085, U+00A0, U+1680, U+2000..U+200A,
    U+2028, U+2029, U+202F, U+205F, U+3000. *)
Definition bytes (l : list nat) : string :=
  string_of_list_ascii (map ascii_of_nat l).

Definition spaces : list string :=
  map bytes
    [ [9]; [10]; [11]; [12]; [13]; [32]; [194; 133]; [194; 160];
      [225; 154; 128];
      [226; 128; 128]; [226; 128; 129]; [226; 128; 130]; [226; 128; 131];
      [226; 128; 132]; [226; 128; 133]; [226; 128; 134]; [226; 128; 135];
      [226; 128; 136]; [226; 128; 137]; [226; 128; 138];
      [226; 128; 168]; [226; 128; 169]; [226; 128; 175];
      [226; 129; 159]; [227; 128; 128] ].

(** The rest of [s] after one leading member of [pats], if [s] starts with
    one. *)
Fixpoint stripOne (pats : list string) (s : string) : option string :=
  match pats with
  | [] => None
  | p :: pats' =>
      if HasPrefix s p then Some (drop (String.length p) s)
      else stripOne pats' s
  end.

Fixpoint trimLeftIn (fuel : nat) (pats : list string) (s : string) : string :=
  match fuel with
  | 0 => s
  | S fuel' =>
      match stripOne pats s with
      | Some s' => trimLeftIn fuel' pats s'
      | None => s
      end
  end.

(** [strings.TrimSpace(s)].  A white-space rune is at least one byte long, so
    [length s] rounds of stripping reach the first rune that is kept. *)
Definition TrimSpace (s : string) : string :=
  let l := trimLeftIn (String.length s) spaces s in
  rev (trimLeftIn (String.length l) (map rev spaces) (rev l)).

Definition lowerByte (c : ascii) : ascii :=
  let n := nat_of_ascii c in
  if (65 <=? n)%nat && (n <=? 90)%nat then ascii_of_nat (n + 32) else c.

Definition upperByte (c : ascii) : ascii :=
  let n := nat_of_ascii c in
  if (97 <=? n)%nat && (n <=? 122)%nat then ascii_of_nat (n - 32) else c.

Fixpoint mapBytes (f : ascii -> ascii) (s : string) : string :=
  match s with
  | "" => ""
  | String c s' => String (f c) (mapBytes f s')
  end.

(** [strings.ToLower(s)] on the ASCII letters.  Go also folds the letters
    beyond ASCII, none of which folds to a byte of [".json"], the one string
    the result is compared with. *)
Definition ToLower (s : string) : string := mapBytes lowerByte s.

Fixpoint allBytes (p : ascii -> bool) (s : string) : bool :=
  match s with
  | "" => true
  | String c s' => p c && allBytes p s'
  end.

Fixpoint Contains (s : string) (c : ascii) : bool :=
  match s with
  | "" => false
  | String a s' => Ascii.eqb a c || Contains s' c
  end.

End strings.


(** ** Package [unicode/utf8] *)

Module utf8.

Definition inRange (lo hi n : nat) : bool := (lo <=? n)%nat && (n <=? hi)%nat.

Definition cont (n : nat) : bool := inRange 128 191 n.

(** [utf8.Valid] on the byte values of a string. *)
Fixpoint validBytes (l : list nat) : bool :=
  match l with
  | [] => true
  | b0 :: r1 =>
      if (b0 <? 128)%nat then validBytes r1
      else if inRange 194 223 b0 then
        match r1 with
        | b1 :: r2 => cont b1 && validBytes r2
        | _ => false
        end
      else if inRange 224 239 b0 then
        match r1 with
        | b1 :: b2 :: r3 =>
            (if (b0 =? 224)%nat then inRange 160 191 b1
             else if (b0 =? 237)%nat then inRange 128 159 b1
             else cont b1)
            && cont b2 && validBytes r3
        | _ => false
        end
      else if inRange 240 244 b0 then
        match r1 with
        | b1 :: b2 :: b3 :: r4 =>
            (if (b0 =? 240)%nat then inRange 144 191 b1
             else if (b0 =? 244)%nat then inRange 128 143 b1
             else cont b1)
            && cont b2 && cont b3 && validBytes r4
        | _ => false
        end
      else false
  end.

Definition ValidString (s : string) : bool :=
  validBytes (map nat_of_ascii (list_ascii_of_string s)).

(** The size [utf8.DecodeRuneInString] returns with a rune it finds at the
    head of the bytes [l]; 0 where [l] is empty or its head is no encoding
    of a rune, for which Go returns [RuneError] with the sizes 0 and 1. *)
Definition encoded (l : list nat) : nat :=
  match l with
  | [] => 0
  | b0 :: r1 =>
      if (b0 <? 128)%nat then 1
      else if inRange 194 223 b0 then
        match r1 with
        | b1 :: _ => if cont b1 then 2 else 0
        | _ => 0
        end
      else if inRange 224 239 b0 then
        match r1 with
        | b1 :: b2 :: _ =>
            if (if (b0 =? 224)%nat then inRange 160 191 b1
                else if (b0 =? 237)%nat then inRange 128 159 b1
                else cont b1)
               && cont b2
            then 3 else 0
        | _ => 0
        end
      else if inRange 240 244 b0 then
        match r1 with
        | b1 :: b2 :: b3 :: _ =>
            if (if (b0 =? 240)%nat then inRange 144 191 b1
                else if (b0 =? 244)%nat then inRange 128 143 b1
                else cont b1)
               && cont b2 && cont b3
            then 4 else 0
        | _ => 0
        end
      else 0
  end.

(** [s] starts with a byte that opens no encoding: read as a rune, that
    byte alone is [RuneError], U+FFFD. *)
Definition stray (s : string) : bool :=
  negb (String.eqb s "")
  && (encoded (map nat_of_ascii (list_ascii_of_string s)) =? 0)%nat.

End utf8.

(** ** Package [regexp]

    [compileURI] writes its expression piece by piece; the model keeps the
    pieces that were written instead of re-reading the text they spell. *)

Module regexp.

(** The three things [compileURI] writes after a ["/"]. *)
Inductive piece :=
  | Literal (s : string)    (* regexp.QuoteMeta(s): the bytes of s *)
  | Segment (name : string) (* a group called name around [^/]+ *)
  | Rest (name : string).   (* a group called name around dot-star *)

Definition special (c : ascii) : bool :=
  strings.Contains "\.+*?()|[]{}^$" c.

Fixpoint QuoteMeta (s : string) : string :=
  match s with
  | "" => ""
  | String c s' =>
      if special c then String "\" (String c (QuoteMeta s'))
      else String c (QuoteMeta s')
  end.

Definition pieceText (p : piece) : string :=
  match p with
  | Literal s => "/" ++ QuoteMeta s
  | Segment name => "/" ++ "(?P<" ++ name ++ ">[^/]+)"
  | Rest name => "/" ++ "(?P<" ++ name ++ ">.*)"
  end.

(** The expression as [b.String()] returns it. *)
Definition text (ps : list piece) : string :=
  "^" ++ String.concat "" (map pieceText ps) ++ "$".

Abbreviation Regexp := (list piece).

Definition isalnum (c : ascii) : bool :=
  let n := nat_of_ascii c in
  utf8.inRange 48 57 n || utf8.inRange 65 90 n || utf8.inRange 97 122 n.

(** [syntax.isValidCaptureName]: one or more of [_0-9a-zA-Z]. *)
Definition isValidCaptureName (name : string) : bool :=
  negb (String.eqb name "")
  && strings.allBytes (fun c => Ascii.eqb c "_" || isalnum c) name.

(** What [regexp.Compile] answers on the text of a list of pieces. *)
Inductive compiled :=
  | Compiled (re : Regexp)
  | Rejected
  | Unmodelled.

(** A group [(?P<name>...)]: the parser takes the name up to the first [>].
    Without a [>] in [name] that is [name] itself, refused unless it is a
    capture name.  With a [>] in it, a refused prefix is an error as well; an
    accepted prefix leaves the rest of [name] to be read as pattern syntax,
    which this model does not follow. *)
Definition group (name : string) : option bool :=
  match strings.Index name ">" with
  | None => Some (isValidCaptureName name)
  | Some i => if isValidCaptureName (strings.take i name) then None else Some false
  end.

Fixpoint check (ps : list piece) : option bool :=
  match ps with
  | [] => Some true
  | Literal s :: ps' => if utf8.ValidString s then check ps' else Some false
  | Segment name :: ps' | Rest name :: ps' =>
      match group name with
      | Some true => check ps'
      | r => r
      end
  end.

(** [regexp.Compile(b.String())].  The parser reads the text left to right
    and stops at its first error: a literal that is not UTF-8, or a bad group
    name.  The bounds the parser puts on the size of an expression are not
    modelled. *)
Definition Compile (ps : list piece) : compiled :=
  match check ps with
  | Some true => Compiled ps
  | Some false => Rejected
  | None => Unmodelled
  end.

Definition LF : ascii := ascii_of_nat 10.

(** The encoding of U+FFFD, the rune [utf8.RuneError]. *)
Definition replacement : string :=
  String (ascii_of_nat 239) (String (ascii_of_nat 191) (String (ascii_of_nat 189) "")).

(** What is left of [p] behind the literal [lit], if [p] starts with it.
    The matcher reads [p] rune by rune, and a byte that opens no encoding
    reads as U+FFFD: a rune of [lit] other than U+FFFD is matched by its
    encoding alone, byte for byte, and U+FFFD by its encoding or by one
    such byte. *)
Fixpoint after (lit p : string) : option string :=
  match lit with
  | "" => Some p
  | String c lit1 =>
      let bytewise :=
        match p with
        | String d p' => if Ascii.eqb c d then after lit1 p' else None
        | "" => None
        end in
      match lit1 with
      | String c2 (String c3 lit3) =>
          if String.eqb (String c (String c2 (String c3 ""))) replacement && utf8.stray p
          then match p with
               | String _ p' => after lit3 p'
               | "" => None
               end
          else bytewise
      | _ => bytewise
      end
  end.
Arguments after : simpl never.

(** The longest run of bytes other than ["/"] at the head of [p], and what
    follows it.  Read rune by rune the run is the same: no rune but ["/"]
    has the byte of ["/"] in its encoding, and a byte that is no encoding
    reads as U+FFFD. *)
Fixpoint span (p : string) : string * string :=
  match p with
  | "" => ("", "")
  | String c p' =>
      if Ascii.eqb c "/" then ("", p)
      else let '(x, r) := span p' in (String c x, r)
  end.

(** Dot-star: the longest prefix of [p] free of line feeds whose remainder [k]
    accepts; [.] does not match a line feed, the flag [s] being off, and
    matches every other rune, U+FFFD for a byte that is no encoding
    included. *)
Fixpoint greedy (k : string -> option (list string)) (p : string)
  : option (list string) :=
  match p with
  | "" => option_map (cons "") (k "")
  | String c p' =>
      if Ascii.eqb c LF then option_map (cons "") (k p)
      else match greedy k p' with
           | Some (y :: caps) => Some (String c y :: caps)
           | _ => option_map (cons "") (k p)
           end
  end.

(** The submatches of the groups of [ps] when [ps] followed by [$] matches
    all of [p].  A [[^/]+] group is followed by ["/"] or by the end, so its
    match is the whole run up to the next ["/"]. *)
Fixpoint submatches (ps : list piece) (p : string) : option (list string) :=
  match ps with
  | [] => if String.eqb p "" then Some [] else None
  | Literal s :: ps' =>
      match after ("/" ++ s) p with
      | Some r => submatches ps' r
      | None => None
      end
  | Segment _ :: ps' =>
      match after "/" p with
      | Some r =>
          let '(x, r') := span r in
          if String.eqb x "" then None
          else option_map (cons x) (submatches ps' r')
      | None => None
      end
  | Rest _ :: ps' =>
      match after "/" p with
      | Some r => greedy (submatches ps') r
      | None => None
      end
  end.

(** [re.FindStringSubmatch(p)]: the whole match, then one entry per group.
    The expression is anchored at both ends, so the whole match is [p]. *)
Definition FindStringSubmatch (re : Regexp) (p : string) : option (list string) :=
  option_map (cons p) (submatches re p).

Definition groupName (p : piece) : list string :=
  match p with
  | Literal _ => []
  | Segment name | Rest name => [name]
  end.

(** [re.SubexpNames()]: the empty name of the whole match, then the groups'. *)
Definition SubexpNames (re : Regexp) : list string :=
  "" :: flat_map groupName re.

End regexp.

(** ** Package [time] *)

Module time.

Local Open Scope Z_scope.

(** A [time.Duration]: a signed 64-bit count of nanoseconds. *)
Abbreviation Duration := Z.

Definition Nanosecond : Z := 1.
Definition Microsecond : Z := 1000 * Nanosecond.
Definition Millisecond : Z := 1000 * Microsecond.
Definition Second : Z := 1000 * Millisecond.
Definition Minute : Z := 60 * Second.
Definition Hour : Z := 60 * Minute.

Definition unitMap (u : string) : option Z :=
  if String.eqb u "ns" then Some Nanosecond
  else if String.eqb u "us" then Some Microsecond
  else if String.eqb u (strings.bytes [194; 181; 115]%nat) then Some Microsecond
  else if String.eqb u (strings.bytes [206; 188; 115]%nat) then Some Microsecond
  else if String.eqb u "ms" then Some Millisecond
  else if String.eqb u "s" then Some Second
  else if String.eqb u "m" then Some Minute
  else if String.eqb u "h" then Some Hour
  else None.

Definition isDigit (c : ascii) : bool :=
  utf8.inRange 48%nat 57%nat (nat_of_ascii c).

Definition digit (c : ascii) : Z := Z.of_nat (nat_of_ascii c) - 48.

Definition wrap64 (n : Z) : Z := n mod 2 ^ 64.

(** [leadingInt]: the leading digits of [s] as a number and the rest of [s];
    [None] is [errLeadingInt]. *)
Fixpoint leadingInt (s : string) (x : Z) : option (Z * string) :=
  match s with
  | String c s' =>
      if isDigit c then
        if x >? 2 ^ 63 / 10 then None
        else
          let x' := wrap64 (x * 10 + digit c) in
          if x' >? 2 ^ 63 then None else leadingInt s' x'
      else Some (x, s)
  | "" => Some (x, "")
  end.

(** [leadingFraction]: the digits after the point as a number [x] over
    [scale]; digits past the precision of 64 bits are read and dropped. *)
Fixpoint leadingFraction (s : string) (x : Z) (scale : float) (overflow : bool)
  : Z * float * string :=
  match s with
  | String c s' =>
      if isDigit c then
        if overflow then leadingFraction s' x scale true
        else if x >? (2 ^ 63 - 1) / 10 then leadingFraction s' x scale true
        else
          let y := wrap64 (x * 10 + digit c) in
          if y >? 2 ^ 63 then leadingFraction s' x scale true
          else leadingFraction s' y (scale * 10)%float false
      else (x, scale, s)
  | "" => (x, scale, "")
  end.

(** [float64(n)] for [0 <= n <= 2^63]. *)
Definition float64 (n : Z) : float :=
  if n <? 2 ^ 63 then PrimFloat.of_uint63 (Uint63.of_Z n) else 0x1p63%float.

(** [uint64(x)] for a float in range: the fraction is cut off. *)
Definition uint64 (x : float) : Z :=
  match Prim2SF x with
  | S754_finite false m e => Z.shiftl (Z.pos m) e
  | _ => 0
  end.

(** The length of the unit at the head of [s]: the bytes before the next
    ["."] or digit. *)
Fixpoint unitLen (s : string) : nat :=
  match s with
  | String c s' =>
      if Ascii.eqb c "." || isDigit c then 0%nat else S (unitLen s')
  | "" => 0%nat
  end.

(** The loop [for s != ""] of [ParseDuration], [d] the sum so far.  Every
    round consumes a unit of at least one byte, so [fuel = len(s)] rounds
    are enough. *)
Fixpoint terms (fuel : nat) (s : string) (d : Z) : option Z :=
  match s with
  | "" => Some d
  | String c0 _ =>
      match fuel with
      | 0%nat => None
      | S fuel' =>
          if negb (Ascii.eqb c0 "." || isDigit c0) then None
          else
            match leadingInt s 0 with
            | None => None
            | Some (v, s1) =>
                let pre := negb (String.length s =? String.length s1)%nat in
                let '(f, scale, s2, post) :=
                  match s1 with
                  | String "." s1' =>
                      let '(f, scale, s2) := leadingFraction s1' 0 1%float false in
                      (f, scale, s2, negb (String.length s1' =? String.length s2)%nat)
                  | _ => (0, 1%float, s1, false)
                  end in
                if negb pre && negb post then None
                else
                  let i := unitLen s2 in
                  if (i =? 0)%nat then None
                  else
                    match unitMap (strings.take i s2) with
                    | None => None
                    | Some unit =>
                        if v >? 2 ^ 63 / unit then None
                        else
                          let v1 := wrap64 (v * unit) in
                          let v2 :=
                            if f >? 0
                            then wrap64 (v1 + uint64 (float64 f * (float64 unit / scale))%float)
                            else v1 in
                          if (f >? 0) && (v2 >? 2 ^ 63) then None
                          else
                            let d' := wrap64 (d + v2) in
                            if d' >? 2 ^ 63 then None
                            else terms fuel' (strings.drop i s2) d'
                    end
            end
      end
  end.

(** [time.ParseDuration(s)]; [None] is an error. *)
Definition ParseDuration (s : string) : option Duration :=
  let '(neg, s) :=
    match s with
    | String c s' =>
        if Ascii.eqb c "-" || Ascii.eqb c "+" then (Ascii.eqb c "-", s') else (false, s)
    | "" => (false, s)
    end in
  if String.eqb s "0" then Some 0
  else if String.eqb s "" then None
  else
    match terms (String.length s) s 0 with
    | None => None
    | Some d =>
        if neg then Some (- d)
        else if d >? 2 ^ 63 - 1 then None
        else Some d
    end.

End time.

(** ** Package [net/textproto] and the maps of [net/http] and [net/url] *)

Module textproto.

(** [validHeaderFieldByte]: the bytes of an RFC 7230 token. *)
Definition validHeaderFieldByte (c : ascii) : bool :=
  regexp.isalnum c || strings.Contains "!#$%&'*+-.^_`|~" c.

(** Upper case at the start and after each ["-"], lower case elsewhere. *)
Fixpoint canonical (upper : bool) (s : string) : string :=
  match s with
  | "" => ""
  | String c s' =>
      let c' := if upper then strings.upperByte c else strings.lowerByte c in
      String c' (canonical (Ascii.eqb c' "-") s')
  end.

(** [textproto.CanonicalMIMEHeaderKey(s)]: a key with a byte outside the
    token bytes is returned as it is. *)
Definition CanonicalMIMEHeaderKey (s : string) : string :=
  if strings.allBytes validHeaderFieldByte s then canonical true s else s.

(** [http.Header] and [url.Values]: [map[string][]string]. *)
Abbreviation Values := (gmap string (list string)).

Definition first (vs : list string) : string :=
  match vs with
  | v :: _ => v
  | [] => ""
  end.

(** [url.Values.Get(key)]. *)
Definition ValuesGet (q : Values) (key : string) : string :=
  match q !! key with
  | Some vs => first vs
  | None => ""
  end.

(** [http.Header.Get(key)]. *)
Definition HeaderGet (h : Values) (key : string) : string :=
  ValuesGet h (CanonicalMIMEHeaderKey key).

End textproto.

(** ** Formatting

    The formatting routines of [fmt], [strconv] and [encoding/json] that the
    program calls.  Their output is text the program passes on or trims; the
    development is parametric in them. *)

Class Formatting := {
  (** [fmt.Sprintf("%q", s)] *)
  Sprintf_q : string -> string;
  (** [fmt.Sprintf("%f", t)] *)
  Sprintf_f : float -> string;
  (** the string literal [json.Marshal] writes for [s] *)
  quoteJSON : string -> string;
  (** the number [json.Marshal] writes for a [float64]; none for NaN and the
      infinities *)
  floatJSON : float -> option string;
}.

(** ** Package [encoding/json] *)

Module json.

(** A Go value of type [any] as the decoder builds it under [UseNumber]:
    [nil], [bool], [json.Number] (the number as spelled in the input),
    [string], [[]any] and [map[string]any]; and [float64], which the decoder
    builds without [UseNumber].  A map is given by its entries; where a key
    repeats, the last entry is the one the map holds. *)
#[warnings="-register-all"]
Inductive any :=
  | Nil
  | Bool (b : bool)
  | Number (n : string)
  | Float64 (t : float)
  | Str (s : string)
  | Slice (l : list any)
  | Map (fields : list (string * any)).

Definition isDigit (c : ascii) : bool := time.isDigit c.

Fixpoint skipDigits (s : string) : string :=
  match s with
  | String c s' => if isDigit c then skipDigits s' else s
  | "" => ""
  end.

(** [json.isValidNumber]: the grammar of JSON numbers. *)
Definition isValidNumber (s : string) : bool :=
  match s with
  | "" => false
  | String c0 s0 =>
      let s1 := if Ascii.eqb c0 "-" then s0 else s in
      match s1 with
      | "" => false
      | String c1 s1' =>
          let digits :=
            if Ascii.eqb c1 "0" then Some s1'
            else if utf8.inRange 49 57 (nat_of_ascii c1) then Some (skipDigits s1')
            else None in
          match digits with
          | None => false
          | Some s2 =>
              let s3 :=
                match s2 with
                | String "." (String d s2') =>
                    if isDigit d then skipDigits s2' else s2
                | _ => s2
                end in
              match s3 with
              | String e (String c s3') =>
                  if Ascii.eqb e "e" || Ascii.eqb e "E" then
                    if Ascii.eqb c "+" || Ascii.eqb c "-" then
                      match s3' with
                      | "" => false
                      | _ => String.eqb (skipDigits s3') ""
                      end
                    else String.eqb (skipDigits (String c s3')) ""
                  else false
              | _ => String.eqb s3 ""
              end
          end
      end
  end.

(** The entries a map holds: of the entries with one key, the last. *)
Fixpoint entries {A : Type} (fields : list (string * A)) : list (string * A) :=
  match fields with
  | [] => []
  | (k, x) :: rest =>
      if existsb (fun kx => String.eqb (fst kx) k) rest then entries rest
      else (k, x) :: entries rest
  end.

Fixpoint insertKey {A : Type} (kx : string * A) (l : list (string * A))
  : list (string * A) :=
  match l with
  | [] => [kx]
  | ky :: l' =>
      if String.ltb (fst kx) (fst ky) then kx :: l else ky :: insertKey kx l'
  end.

(** The entries in the order of their keys, as [json.Marshal] writes them. *)
Definition sortKeys {A : Type} (l : list (string * A)) : list (string * A) :=
  foldr insertKey [] l.

Fixpoint sequence {A : Type} (l : list (option A)) : option (list A) :=
  match l with
  | [] => Some []
  | Some a :: l' => option_map (cons a) (sequence l')
  | None :: _ => None
  end.

Section Marshal.
Context `{Formatting}.

(** [json.Marshal(v)]: the compact JSON text of [v]; [None] is an error. *)
Fixpoint Marshal (v : any) : option string :=
  match v with
  | Nil => Some "null"
  | Bool b => Some (if b then "true" else "false")
  | Number n =>
      let numStr := if String.eqb n "" then "0" else n in
      if isValidNumber numStr then Some numStr else None
  | Float64 t => floatJSON t
  | Str s => Some (quoteJSON s)
  | Slice l =>
      option_map (fun xs => "[" ++ String.concat "," xs ++ "]")
        (sequence ((fix each (l : list any) : list (option string) :=
                      match l with
                      | [] => []
                      | x :: l' => Marshal x :: each l'
                      end) l))
  | Map fields =>
      let each :=
        (fix each (fs : list (string * any)) : list (string * option string) :=
           match fs with
           | [] => []
           | (k, x) :: fs' => (k, Marshal x) :: each fs'
           end) fields in
      option_map
        (fun kvs => "{" ++ String.concat "," kvs ++ "}")
        (sequence
           (map (fun kx => option_map (fun x => quoteJSON (fst kx) ++ ":" ++ x) (snd kx))
              (sortKeys (entries each))))
  end.

End Marshal.

(** What [dec.Decode(&body)] leaves in [body : map[string]any] when the next
    JSON value of the stream is [v]: an object fills the map, [null] leaves
    it nil, and any other value is an error ([None]). *)
Definition decodeMap (v : any) : option (gmap string any) :=
  match v with
  | Map fields => Some (foldl (fun m kx => <[fst kx := snd kx]> m) ∅ fields)
  | Nil => Some ∅
  | _ => None
  end.

End json.

(** ** [main.go] *)

Import strings.

(** The errors the program makes; each stands for the message in its
    comment. *)
Inductive error :=
  | BadAuthFormat                 (* bad auth format, want Header:Token *)
  | EmptyHeaderToken              (* empty header/token *)
  | WildcardNotLast               (* wildcard must be last *)
  | RegexpError                   (* the error of regexp.Compile *)
  | ReadError                     (* the error of os.ReadFile *)
  | UnmarshalError (path : string)
  | MissingFields (path : string) (* missing required fields (uri/method/auth/script) *)
  | BadAuth (path : string) (e : error)
  | BadTTL (path : string)        (* bad ttl, with the error of time.ParseDuration *)
  | BadURI (path : string) (e : error)
  | WalkError                     (* an error filepath.WalkDir hands to its callback *)
  | NoEndpoints (dir : string)    (* no endpoint configs found in dir *)
  | UnclosedPlaceholder (tok : string). (* unclosed placeholder in tok *)

Inductive result (A : Type) :=
  | Ok (a : A)
  | Err (e : error).
Arguments Ok {A} a.
Arguments Err {A} e.

(** The result of a function that calls [regexp.Compile]: a value, an error,
    or [Unmodelled] where the expression is one [regexp.Compile] is not
    modelled on. *)
Inductive loaded (A : Type) :=
  | Loaded (a : A)
  | Refused (e : error)
  | Unmodelled.
Arguments Loaded {A} a.
Arguments Refused {A} e.
Arguments Unmodelled {A}.

(** [type Endpoint struct].  A nil map reads as the empty map, and is
    modelled by it; durations are in nanoseconds. *)
Record Endpoint := {
  URI : string;
  Method : string;
  Query : gmap string string;
  Body : gmap string string;
  Auth : string;
  TTL : string;
  Error : Z;
  Script : list string;
  pathRe : regexp.Regexp;
  wildcard : bool;
  header : string;
  token : string;
  timeout : time.Duration;
}.

Definition parseAuth (a : string) : result (string * string) :=
  match SplitN a ":" 2 with
  | [p0; p1] =>
      let h := TrimSpace p0 in
      let t := TrimSpace p1 in
      if String.eqb h "" || String.eqb t "" then Err EmptyHeaderToken
      else Ok (h, t)
  | _ => Err BadAuthFormat
  end.

(** The loop of [compileURI] from index [i] on: [b] holds the pieces written
    so far and [n] is [len(segs)]. *)
Fixpoint compileSegs (i n : nat) (segs : list string)
    (b : list regexp.piece) (wild : bool) : result (list regexp.piece * bool) :=
  match segs with
  | [] => Ok (b, wild)
  | s :: segs' =>
      if String.eqb s "" then compileSegs (S i) n segs' b wild
      else if HasPrefix s ":" then
        compileSegs (S i) n segs' (b ++ [regexp.Segment (drop 1 s)]) wild
      else if HasPrefix s "*" then
        if negb (i =? n - 1)%nat then Err WildcardNotLast
        else compileSegs (S i) n segs' (b ++ [regexp.Rest (drop 1 s)]) true
      else compileSegs (S i) n segs' (b ++ [regexp.Literal s]) wild
  end.

Definition compileURI (pattern : string) : loaded (regexp.Regexp * bool) :=
  let segs := Split (TrimPrefix pattern "/") "/" in
  match compileSegs 0 (length segs) segs [] false with
  | Err e => Refused e
  | Ok (b, wild) =>
      match regexp.Compile b with
      | regexp.Compiled re => Loaded (re, wild)
      | regexp.Rejected => Refused RegexpError
      | regexp.Unmodelled => Unmodelled
      end
  end.

(** What [os.ReadFile] and [json.Unmarshal] make of a file: an error of
    either, or the struct with its exported fields filled from the file. *)
Inductive file :=
  | Unreadable
  | Malformed
  | Decoded (ep : Endpoint).

Definition mustEndpointFromFile (path : string) (f : file) : loaded Endpoint :=
  match f with
  | Unreadable => Refused ReadError
  | Malformed => Refused (UnmarshalError path)
  | Decoded ep =>
      if String.eqb (URI ep) "" || String.eqb (Method ep) ""
         || String.eqb (Auth ep) "" || (length (Script ep) =? 0)%nat
      then Refused (MissingFields path)
      else
        match parseAuth (Auth ep) with
        | Err e => Refused (BadAuth path e)
        | Ok (h, t) =>
            let ttl := if String.eqb (TTL ep) "" then "8s" else TTL ep in
            match time.ParseDuration ttl with
            | None => Refused (BadTTL path)
            | Some d =>
                let err := if (Error ep =? 0)%Z then 500%Z else Error ep in
                match compileURI (URI ep) with
                | Refused e => Refused (BadURI path e)
                | Unmodelled => Unmodelled
                | Loaded (re, wild) =>
                    Loaded {| URI := URI ep; Method := Method ep;
                              Query := Query ep; Body := Body ep;
                              Auth := Auth ep; TTL := ttl; Error := err;
                              Script := Script ep;
                              pathRe := re; wildcard := wild;
                              header := h; token := t; timeout := d |}
                end
            end
        end
  end.

(** [filepath.Ext(p)]: from the last ["."] of the last element of [p] on. *)
Fixpoint extRev (r acc : string) : string :=
  match r with
  | "" => ""
  | String c r' =>
      if Ascii.eqb c "/" then ""
      else if Ascii.eqb c "." then String "." acc
      else extRev r' (String c acc)
  end.

Definition Ext (p : string) : string := extRev (rev p) "".

(** What [filepath.WalkDir] hands to its callback, in the order of the
    walk. *)
Inductive entry :=
  | Failed
  | Directory (p : string)
  | File (p : string) (f : file).

Fixpoint walk (entries : list entry) (eps : list Endpoint) : loaded (list Endpoint) :=
  match entries with
  | [] => Loaded eps
  | Failed :: _ => Refused WalkError
  | Directory _ :: rest => walk rest eps
  | File p f :: rest =>
      if negb (String.eqb (ToLower (Ext p)) ".json") then walk rest eps
      else
        match mustEndpointFromFile p f with
        | Loaded ep => walk rest (eps ++ [ep])
        | Refused e => Refused e
        | Unmodelled => Unmodelled
        end
  end.

Fixpoint insertSorted {A : Type} (less : A -> A -> bool) (x : A) (l : list A) : list A :=
  match l with
  | [] => [x]
  | y :: l' => if less x y then x :: l else y :: insertSorted less x l'
  end.

(** [sort.Slice(eps, less)].  Go leaves the order among elements that
    compare equal open; the model keeps them in their order of arrival, as
    the insertion sort Go runs on slices of up to twelve elements does.  On
    a longer slice Go may put templates that are equal in another order;
    the statements below use the order of the templates only. *)
Definition sortSlice {A : Type} (less : A -> A -> bool) (l : list A) : list A :=
  foldl (fun sorted x => insertSorted less x sorted) [] l.

Definition lessURI (a b : Endpoint) : bool := String.ltb (URI a) (URI b).

Definition loadEndpoints (dir : string) (entries : list entry) : loaded (list Endpoint) :=
  match walk entries [] with
  | Loaded eps =>
      if (length eps =? 0)%nat then Refused (NoEndpoints dir)
      else Loaded (sortSlice lessURI eps)
  | r => r
  end.

(** The loop of [pathVars] from index [i] on: [out[name] = m[i]] for every
    named group.  [m] has one entry per name, so [m[i]] is in range. *)
Fixpoint collect (i : nat) (names m : list string) (out : gmap string string)
  : gmap string string :=
  match names with
  | [] => out
  | name :: names' =>
      if (i =? 0)%nat || String.eqb name "" then collect (S i) names' m out
      else collect (S i) names' m (<[name := default "" (m !! i)]> out)
  end.

(** [pathVars]: [None] is the result [nil, false]. *)
Definition pathVars (ep : Endpoint) (p : string) : option (gmap string string) :=
  match regexp.FindStringSubmatch (pathRe ep) p with
  | None => None
  | Some m => Some (collect 0 (regexp.SubexpNames (pathRe ep)) m ∅)
  end.

(** An [*http.Request], as far as the program reads it. *)
Record Request := {
  (** [r.Method] *)
  ReqMethod : string;
  (** [r.URL.Path] *)
  Path : string;
  (** [r.URL.Query()] *)
  URLQuery : textproto.Values;
  (** [r.Header] *)
  Header : textproto.Values;
  (** [r.Body]: [None] is nil; otherwise the first JSON value the decoder
      finds in the stream, [Some None] where it finds none: an empty,
      unreadable or malformed body *)
  ReqBody : option (option json.any);
}.

Section Resolve.
Context `{Formatting}.

Definition toString (v : json.any) : string :=
  match v with
  | json.Str t => t
  | json.Number t => t
  | json.Float64 t =>
      let s := Sprintf_f t in
      let s := TrimRight s "0" in
      let s := TrimRight s "." in
      s
  | json.Bool t => if t then "true" else "false"
  | t => default "" (json.Marshal t)
  end.

(** [for k, v := range src { params[k] = v }] *)
Definition assign (src params : gmap string string) : gmap string string :=
  map_fold (fun k v params => <[k := v]> params) params src.

Definition mergeParams (ep : Endpoint) (pv : gmap string string) (r : Request)
  : gmap string string :=
  let params := ∅ in
  let params := assign (Query ep) params in
  let params := assign (Body ep) params in
  let params := assign pv params in
  let q := URLQuery r in
  let params :=
    map_fold (fun k _ params => <[k := textproto.ValuesGet q k]> params) params q in
  match ReqBody r with
  | Some (Some v) =>
      match json.decodeMap v with
      | Some body =>
          map_fold (fun k v params => <[k := toString v]> params) params body
      | None => params
      end
  | _ => params
  end.

(** [res[lo:hi]] *)
Definition slice (lo hi : nat) (res : string) : string :=
  take (hi - lo) (drop lo res).

(** The inner [for] of [applyTemplate] on one token.  The loop has no bound
    of its own: [None] says it is still running after [fuel] rounds. *)
Fixpoint expand (fuel : nat) (params : gmap string string) (tok res : string)
  : option (result string) :=
  match fuel with
  | 0 => None
  | S fuel' =>
      match Index res "{" with
      | None => Some (Ok res)
      | Some s =>
          match Index (drop (s + 1) res) "}" with
          | None => Some (Err (UnclosedPlaceholder tok))
          | Some e =>
              let e := e + (s + 1) in
              let name := slice (s + 1) e res in
              let val := default "" (params !! name) in
              expand fuel' params tok (take s res ++ val ++ drop (e + 1) res)
          end
      end
  end.

Fixpoint applyTemplate (fuel : nat) (tokens : list string)
    (params : gmap string string) : option (result (list string)) :=
  match tokens with
  | [] => Some (Ok [])
  | tok :: tokens' =>
      match expand fuel params tok tok with
      | None => None
      | Some (Err e) => Some (Err e)
      | Some (Ok res) =>
          match applyTemplate fuel tokens' params with
          | Some (Ok out) => Some (Ok (res :: out))
          | r => r
          end
      end
  end.

(** [err.Error()] of the error of [applyTemplate]. *)
Definition errorText (e : error) : string :=
  match e with
  | UnclosedPlaceholder tok => "unclosed placeholder in " ++ Sprintf_q tok
  | _ => ""
  end.

(** The [http.ResponseWriter] of the server, a [*http.response]: whether
    the request is a [HEAD] request, the informational responses sent, the
    status once the header is written, the header map and the body that is
    sent. *)
Record ResponseWriter := {
  Head : bool;
  Interim : list Z;
  Status : option Z;
  Headers : textproto.Values;
  Written : string;
}.

Definition newResponse (r : Request) : ResponseWriter :=
  {| Head := String.eqb (ReqMethod r) "HEAD"; Interim := []; Status := None;
     Headers := ∅; Written := "" |}.

(** [w.WriteHeader(code)]; [None] is the panic of [checkWriteHeaderCode] on
    a code that has not three digits.  A second call is logged and
    ignored; a code from 100 to 199 other than 101 is sent at once as an
    informational response and leaves the header to be written. *)
Definition WriteHeader (code : Z) (w : ResponseWriter) : option ResponseWriter :=
  match Status w with
  | Some _ => Some w
  | None =>
      if (code <? 100)%Z || (999 <? code)%Z then None
      else if (100 <=? code)%Z && (code <=? 199)%Z && negb (code =? 101)%Z
      then Some {| Head := Head w; Interim := Interim w ++ [code]; Status := None;
                   Headers := Headers w; Written := Written w |}
      else Some {| Head := Head w; Interim := Interim w; Status := Some code;
                   Headers := Headers w; Written := Written w |}
  end.

Definition bodyAllowedForStatus (status : Z) : bool :=
  negb ((100 <=? status)%Z && (status <=? 199)%Z)
  && negb (status =? 204)%Z && negb (status =? 304)%Z.

(** [w.Write(b)]: the header is written with the status 200 if it was not
    written yet; the bytes are refused with [ErrBodyNotAllowed] where the
    status allows no body, and dropped in the answer to a [HEAD] request.
    The handler does not look at the error. *)
Definition Write (b : string) (w : ResponseWriter) : ResponseWriter :=
  let status := default 200%Z (Status w) in
  {| Head := Head w; Interim := Interim w; Status := Some status;
     Headers := Headers w;
     Written := if bodyAllowedForStatus status && negb (Head w)
                then Written w ++ b else Written w |}.

(** [w.Header().Set(key, value)] *)
Definition SetHeader (key value : string) (w : ResponseWriter) : ResponseWriter :=
  {| Head := Head w; Interim := Interim w; Status := Status w;
     Headers := <[textproto.CanonicalMIMEHeaderKey key := [value]]> (Headers w);
     Written := Written w |}.

Definition newline : string := String (ascii_of_nat 10) "".

(** [http.Error(w, msg, code)] *)
Definition httpError (msg : string) (code : Z) (w : ResponseWriter)
  : option ResponseWriter :=
  let w := SetHeader "Content-Type" "text/plain; charset=utf-8" w in
  let w := SetHeader "X-Content-Type-Options" "nosniff" w in
  match WriteHeader code w with
  | Some w => Some (Write (msg ++ newline) w)
  | None => None
  end.

(** [http.NotFound(w, r)] *)
Definition NotFound (w : ResponseWriter) : option ResponseWriter :=
  httpError "404 page not found" 404 w.

(** The command [exec.CommandContext] is asked to run, with the
    environment the handler gives it and the timeout of its context. *)
Record Cmd := {
  Name : string;
  Args : list string;
  Env : list string;
  Deadline : time.Duration;
}.

(** What the handler sees of a run: the bytes of [cmd.CombinedOutput()],
    its error ([None] is nil; [Some d] an error, with [d] the answer of
    [errors.Is(err, context.DeadlineExceeded)]), and whether [ctx.Err()] is
    [context.DeadlineExceeded] when the handler asks. *)
Record Execution := {
  out : string;
  failure : option bool;
  expired : bool;
}.

(** What the handler did after routing and authentication, in order. *)
Inductive event :=
  | CallMergeParams
  | CallApplyTemplate
  | CallCombinedOutput (cmd : Cmd).

(** How a call of the handler ends: with the response written, with a
    panic, of [argv[0]] on an empty [argv] or of [WriteHeader] on a code that
    has not three digits, or not within [fuel] rounds of the loop of
    [applyTemplate]. *)
Inductive served :=
  | Served (w : ResponseWriter) (log : list event)
  | Panicked (log : list event)
  | Running (log : list event).

(** The end of a call whose last write is [w], [None] being a panic. *)
Definition answer (w : option ResponseWriter) (log : list event) : served :=
  match w with
  | Some w => Served w log
  | None => Panicked log
  end.

(** The loop of the handler over [eps]: the first endpoint of the method of
    the request whose expression matches the path. *)
Fixpoint route (eps : list Endpoint) (r : Request)
  : option (Endpoint * gmap string string) :=
  match eps with
  | [] => None
  | e :: eps' =>
      if negb (String.eqb (ReqMethod r) (Method e)) then route eps' r
      else match pathVars e (Path r) with
           | Some vars => Some (e, vars)
           | None => route eps' r
           end
  end.

(** The handler registered for ["/health"]. *)
Definition health (w : ResponseWriter) : option ResponseWriter :=
  option_map (Write "ok") (WriteHeader 200 w).

(** The handler registered for ["/"], as [http.ServeMux] calls it.  [run] is
    the operating system: what running a command gives. *)
Definition dispatch (run : Cmd -> Execution) (eps : list Endpoint)
    (fuel : nat) (r : Request) : served :=
  let w := newResponse r in
  match route eps r with
  | None => answer (NotFound w) []
  | Some (ep, pv) =>
      if negb (String.eqb (textproto.HeaderGet (Header r) (header ep)) (token ep))
      then answer (httpError "unauthorized" 401 w) []
      else
        let params := mergeParams ep pv r in
        match applyTemplate fuel (Script ep) params with
        | None => Running [CallMergeParams; CallApplyTemplate]
        | Some (Err err) =>
            answer (httpError ("bad template: " ++ errorText err) 400 w)
              [CallMergeParams; CallApplyTemplate]
        | Some (Ok []) => Panicked [CallMergeParams; CallApplyTemplate]
        | Some (Ok (argv0 :: argv1)) =>
            let cmd := {| Name := argv0; Args := argv0 :: argv1;
                          Env := ["PATH=/usr/sbin:/usr/bin:/sbin:/bin"];
                          Deadline := timeout ep |} in
            let x := run cmd in
            let log := [CallMergeParams; CallApplyTemplate; CallCombinedOutput cmd] in
            match failure x with
            | Some isDeadline =>
                match WriteHeader (Error ep) w with
                | None => Panicked log
                | Some w =>
                    let w := Write (out x) w in
                    let w :=
                      if isDeadline || expired x
                      then Write (newline ++ "(timeout)" ++ newline) w
                      else w in
                    Served w log
                end
            | None =>
                let w := SetHeader "Content-Type" "text/plain; charset=utf-8" w in
                match WriteHeader 200 w with
                | None => Panicked log
                | Some w => Served (Write (out x) w) log
                end
            end
        end
  end.

End Resolve.

(** ** Notions the statements use *)

(** The fields of the JSON object in the body of [r]: none where the body
    is absent, unreadable or not a JSON object. *)
Definition bodyFields (r : Request) : gmap string json.any :=
  match ReqBody r with
  | Some (Some v) => default ∅ (json.decodeMap v)
  | _ => ∅
  end.

(** The header map of a request as [net/http] hands it to a handler: every
    name is a token in its canonical capitalization. *)
Definition serverHeader (h : textproto.Values) : Prop :=
  forall k vs, h !! k = Some vs ->
    allBytes textproto.validHeaderFieldByte k = true
    /\ textproto.CanonicalMIMEHeaderKey k = k.

(** [e] is an endpoint of the method of [r] whose expression matches the
    path of [r]. *)
Definition matches (e : Endpoint) (r : Request) : Prop :=
  ReqMethod r = Method e /\ is_Some (pathVars e (Path r)).

(** The registry is in the order of [sort.Slice]: no later template is
    below an earlier one. *)
Definition sortedByURI (eps : list Endpoint) : Prop :=
  StronglySorted (fun a b => String.ltb (URI b) (URI a) = false) eps.

(** The answer of the handler to a request that fails authentication. *)
Definition unauthorized `{Formatting} (r : Request) : served :=
  answer (httpError "unauthorized" 401 (newResponse r)) [].

(** [ep] with another name for its authentication header. *)
Definition withHeader (h : string) (ep : Endpoint) : Endpoint :=
  {| URI := URI ep; Method := Method ep; Query := Query ep; Body := Body ep;
     Auth := Auth ep; TTL := TTL ep; Error := Error ep; Script := Script ep;
     pathRe := pathRe ep; wildcard := wildcard ep;
     header := h; token := token ep; timeout := timeout ep |}.

(** ** Sample data *)

Definition quote : string := String (ascii_of_nat 34) "".

(** Formatting for the samples: the Go routines on text that is printable
    ASCII without quotes, backslashes or HTML marks.  No sample formats a
    float. *)
Definition sampleFormatting : Formatting :=
  {| Sprintf_q := fun s => quote ++ s ++ quote;
     Sprintf_f := fun _ => "";
     quoteJSON := fun s => quote ++ s ++ quote;
     floatJSON := fun _ => None |}.

(** The struct [json.Unmarshal] fills from a definition file. *)
Definition definition (uri method auth ttl : string) (script : list string) : Endpoint :=
  {| URI := uri; Method := method; Query := ∅; Body := ∅; Auth := auth;
     TTL := ttl; Error := 0; Script := script;
     pathRe := []; wildcard := false; header := ""; token := ""; timeout := 0%Z |}.

Definition runDef : Endpoint :=
  definition "/run/:id" "GET" "X-Token:abc" "" ["bash"; "-lc"; "echo id={id}"].

Definition runEp : Endpoint :=
  {| URI := "/run/:id"; Method := "GET"; Query := ∅; Body := ∅;
     Auth := "X-Token:abc"; TTL := "8s"; Error := 500;
     Script := ["bash"; "-lc"; "echo id={id}"];
     pathRe := [regexp.Literal "run"; regexp.Segment "id"]; wildcard := false;
     header := "X-Token"; token := "abc"; timeout := 8000000000%Z |}.

Definition request (method path : string) (query header : textproto.Values)
    (body : option (option json.any)) : Request :=
  {| ReqMethod := method; Path := path; URLQuery := query; Header := header;
     ReqBody := body |}.

Definition runReq : Request :=
  request "GET" "/run/42" ∅ {[ "X-Token" := ["abc"] ]} (Some None).

(** A run that prints [text] and ends as [failure] says. *)
Definition prints (text : string) (failure : option bool) (expired : bool)
  : Cmd -> Execution :=
  fun _ => {| out := text; failure := failure; expired := expired |}.

(** A template with an unclosed brace behind a placeholder, and a request
    whose query gives the placeholder its own text as value. *)
Definition loopDef : Endpoint :=
  definition "/echo" "GET" "X-Token:abc" "" ["echo"; "{a}{"].

Definition loopEp : Endpoint :=
  {| URI := "/echo"; Method := "GET"; Query := ∅; Body := ∅;
     Auth := "X-Token:abc"; TTL := "8s"; Error := 500;
     Script := ["echo"; "{a}{"];
     pathRe := [regexp.Literal "echo"]; wildcard := false;
     header := "X-Token"; token := "abc"; timeout := 8000000000%Z |}.

Definition loopReq : Request :=
  request "GET" "/echo" {[ "a" := ["{a}"] ]} {[ "X-Token" := ["abc"] ]} (Some None).

Definition wrongReq : Request :=
  request "GET" "/run/42" ∅ {[ "X-Token" := ["wrong"] ]} (Some None).

(** A second endpoint for the paths of [runDef], with a wildcard. *)
Definition restDef : Endpoint :=
  definition "/run/*rest" "GET" "X-Token:abc" "1s" ["echo"; "{rest}"].

Definition restEp : Endpoint :=
  {| URI := "/run/*rest"; Method := "GET"; Query := ∅; Body := ∅;
     Auth := "X-Token:abc"; TTL := "1s"; Error := 500;
     Script := ["echo"; "{rest}"];
     pathRe := [regexp.Literal "run"; regexp.Rest "rest"]; wildcard := true;
     header := "X-Token"; token := "abc"; timeout := 1000000000%Z |}.

(** A definition with a negative ttl. *)
Definition negDef : Endpoint :=
  definition "/run/:id" "GET" "X-Token:abc" "-1s" ["bash"; "-lc"; "echo id={id}"].

(** A request with the body [{"a": 1.50, "b": 1e3}]. *)
Definition numbersReq : Request :=
  request "GET" "/run/42" ∅ {[ "X-Token" := ["abc"] ]}
    (Some (Some (json.Map [("a", json.Number "1.50"); ("b", json.Number "1e3")]))).

(** An endpoint with a wildcard, and a request for a path with a line
    feed in it: [GET /files/a%0Ab]. *)
Definition filesDef : Endpoint :=
  definition "/files/*rest" "GET" "X-Token:abc" "" ["ls"; "{rest}"].

Definition filesEp : Endpoint :=
  {| URI := "/files/*rest"; Method := "GET"; Query := ∅; Body := ∅;
     Auth := "X-Token:abc"; TTL := "8s"; Error := 500;
     Script := ["ls"; "{rest}"];
     pathRe := [regexp.Literal "files"; regexp.Rest "rest"]; wildcard := true;
     header := "X-Token"; token := "abc"; timeout := 8000000000%Z |}.

Definition lineFeedReq : Request :=
  request "GET" ("/files/a" ++ newline ++ "b") ∅ {[ "X-Token" := ["abc"] ]}
    (Some None).

(** A definition with an error status of its own for a command that
    fails, its endpoint, and a request for it. *)
Definition statusDef (method : string) (code : Z) : Endpoint :=
  {| URI := "/run/:id"; Method := method; Query := ∅; Body := ∅;
     Auth := "X-Token:abc"; TTL := ""; Error := code;
     Script := ["sh"; "-c"; "echo boom; exit 1"];
     pathRe := []; wildcard := false; header := ""; token := ""; timeout := 0%Z |}.

Definition statusEp (method : string) (code : Z) : Endpoint :=
  {| URI := "/run/:id"; Method := method; Query := ∅; Body := ∅;
     Auth := "X-Token:abc"; TTL := "8s";
     Error := if (code =? 0)%Z then 500%Z else code;
     Script := ["sh"; "-c"; "echo boom; exit 1"];
     pathRe := [regexp.Literal "run"; regexp.Segment "id"]; wildcard := false;
     header := "X-Token"; token := "abc"; timeout := 8000000000%Z |}.

Definition statusReq (method : string) : Request :=
  request method "/run/42" ∅ {[ "X-Token" := ["abc"] ]} (Some None).

(** What the handler does for [statusReq]: the command of [statusEp]. *)
Definition statusLog : list event :=
  [CallMergeParams; CallApplyTemplate;
   CallCombinedOutput {| Name := "sh"; Args := ["sh"; "-c"; "echo boom; exit 1"];
                         Env := ["PATH=/usr/sbin:/usr/bin:/sbin:/bin"];
                         Deadline := 8000000000%Z |}].

(** Whether the last brace of [s] is an opening one; [f] where [s] has no
    brace. *)
Fixpoint lastOpens (f : bool) (s : string) : bool :=
  match s with
  | "" => f
  | String c s' =>
      lastOpens (if Ascii.eqb c "{" then true
                 else if Ascii.eqb c "}" then false else f) s'
  end.

(** [s] has a ["{"] that no ["}"] closes before [s] ends. *)
Definition unclosed (s : string) : Prop := lastOpens false s = true.

(** The number of ["{"] in [s]. *)
Fixpoint opens (s : string) : nat :=
  match s with
  | "" => 0
  | String c s' => (if Ascii.eqb c "{" then 1 else 0) + opens s'
  end.

(** No value of [params] has a ["{"] in it. *)
Definition plainValues (params : gmap string string) : Prop :=
  forall k v, params !! k = Some v -> Contains v "{" = false.

(** The substitution in one pass over an argument: the text outside the
    placeholders is copied, every [{name}] gives way to the value of [name],
    or to nothing where [params] has no [name], and the text put in is not
    read again.  [None] stands for a ["{"] without its ["}"]. *)
Fixpoint substituteOnce (params : gmap string string) (s : string) : option string :=
  match s with
  | "" => Some ""
  | String c s' =>
      if Ascii.eqb c "{" then substituteName params "" s'
      else option_map (String c) (substituteOnce params s')
  end
with substituteName (params : gmap string string) (name s : string) : option string :=
  match s with
  | "" => None
  | String c s' =>
      if Ascii.eqb c "}"
      then option_map (append (default "" (params !! name))) (substituteOnce params s')
      else substituteName params (name ++ String c "") s'
  end.

(** [x] before the result of an expansion. *)
Definition withPrefix (x : string) (r : result string) : result string :=
  match r with
  | Ok res => Ok (x ++ res)
  | Err e => Err e
  end.

(** A piece other than a wildcard. *)
Definition notRest (p : regexp.piece) : Prop :=
  match p with
  | regexp.Rest _ => False
  | _ => True
  end.

(** [b] is not below [a] in the order [less]. *)
Definition notBelow {A : Type} (less : A -> A -> bool) (a b : A) : Prop :=
  less b a = false.

(** ** Notions of the further properties *)

(** The path the pieces of a template spell with [vals] in the place of its
    groups, one value a group; [None] where the values and the groups are
    not of a number. *)
Fixpoint fill (ps : list regexp.piece) (vals : list string) : option string :=
  match ps, vals with
  | [], [] => Some ""
  | regexp.Literal s :: ps', _ => option_map (append ("/" ++ s)) (fill ps' vals)
  | regexp.Segment _ :: ps', v :: vals' => option_map (append ("/" ++ v)) (fill ps' vals')
  | regexp.Rest _ :: ps', v :: vals' => option_map (append ("/" ++ v)) (fill ps' vals')
  | _, _ => None
  end.

(** What a group takes: a [:name] a segment that is not empty and has no
    ["/"], a [*name] any text without a line feed. *)
Fixpoint fits (ps : list regexp.piece) (vals : list string) : Prop :=
  match ps, vals with
  | [], [] => True
  | regexp.Literal _ :: ps', _ => fits ps' vals
  | regexp.Segment _ :: ps', v :: vals' =>
      (v <> "" /\ Contains v "/" = false) /\ fits ps' vals'
  | regexp.Rest _ :: ps', v :: vals' =>
      Contains v regexp.LF = false /\ fits ps' vals'
  | _, _ => False
  end.

(** The wildcard of an expression, if it has one, is its last piece, and
    [wild] says whether it has one. *)
Definition wildcardLast (re : regexp.Regexp) (wild : bool) : Prop :=
  if wild
  then exists ps name, re = (ps ++ [regexp.Rest name])%list /\ Forall notRest ps
  else Forall notRest re.

(** A piece [regexp.Compile] accepts: a literal in UTF-8, a group with a
    capture name. *)
Definition validPiece (p : regexp.piece) : Prop :=
  match p with
  | regexp.Literal s => utf8.ValidString s = true
  | regexp.Segment name | regexp.Rest name =>
      regexp.isValidCaptureName name = true /\ Contains name ">" = false
  end.

(** The files of a walk that [loadEndpoints] reads: those whose extension
    is [.json] in any case, in the order of the walk. *)
Fixpoint configs (entries : list entry) : list (string * file) :=
  match entries with
  | [] => []
  | File p f :: rest =>
      if String.eqb (ToLower (Ext p)) ".json" then (p, f) :: configs rest
      else configs rest
  | _ :: rest => configs rest
  end.

(** What the handler did, however the call ended. *)
Definition logOf (s : served) : list event :=
  match s with
  | Served _ log | Panicked log | Running log => log
  end.

(** The commands among the events of a log. *)
Fixpoint commands (log : list event) : list Cmd :=
  match log with
  | [] => []
  | CallCombinedOutput cmd :: log' => cmd :: commands log'
  | _ :: log' => commands log'
  end.

(** The store [out[name] = v] of the loop of [pathVars]. *)
Definition store (out : gmap string string) (nv : string * string) : gmap string string :=
  <[nv.1 := nv.2]> out.

(** An endpoint whose template names two captures alike: [/a/:x/:x]. *)
Definition twiceEp : Endpoint :=
  {| URI := "/a/:x/:x"; Method := "GET"; Query := ∅; Body := ∅;
     Auth := "X-Token:abc"; TTL := "8s"; Error := 500;
     Script := ["echo"; "{x}"];
     pathRe := [regexp.Literal "a"; regexp.Segment "x"; regexp.Segment "x"];
     wildcard := false;
     header := "X-Token"; token := "abc"; timeout := 8000000000%Z |}.

(** A definition whose wildcard is not its last segment, and one without
    its script. *)
Definition midDef : Endpoint :=
  definition "/files/*rest/raw" "GET" "X-Token:abc" "" ["ls"; "{rest}"].

Definition bareDef : Endpoint :=
  definition "/bare" "GET" "X-Token:abc" "" [].

(** A request whose body is the JSON array [[1]]. *)
Definition arrayReq : Request :=
  request "GET" "/run/42" {[ "n" := ["7"; "8"] ]} {[ "X-Token" := ["abc"] ]}
    (Some (Some (json.Slice [json.Number "1"]))).

(** The command of [runEp] for [runReq]. *)
Definition runCmd : Cmd :=
  {| Name := "bash"; Args := ["bash"; "-lc"; "echo id=42"];
     Env := ["PATH=/usr/sbin:/usr/bin:/sbin:/bin"]; Deadline := 8000000000%Z |}.

(** An endpoint whose script has an argument with an unclosed brace. *)
Definition openEp : Endpoint :=
  {| URI := "/run/:id"; Method := "GET"; Query := ∅; Body := ∅;
     Auth := "X-Token:abc"; TTL := "8s"; Error := 500;
     Script := ["echo"; "{id"];
     pathRe := [regexp.Literal "run"; regexp.Segment "id"]; wildcard := false;
     header := "X-Token"; token := "abc"; timeout := 8000000000%Z |}.

(** A piece that does not spell U+FFFD: the one literal rune that takes
    bytes of a path other than its own. *)
Definition plainPiece (p : regexp.piece) : Prop :=
  match p with
  | regexp.Literal s => Index s regexp.replacement = None
  | _ => True
  end.

(** The segments of a template, as [compileURI] splits it. *)
Definition segments (pattern : string) : list string :=
  Split (TrimPrefix pattern "/") "/".

(** A segment whose expression [regexp.Compile] accepts: a [:name] or a
    [*name] with a capture name, letters, digits and [_], at least one, or a
    literal in UTF-8.  The text behind another byte in a name would be read
    as syntax of the expression. *)
Definition plainSegment (s : string) : Prop :=
  if HasPrefix s ":" || HasPrefix s "*"
  then regexp.isValidCaptureName (drop 1 s) = true
  else utf8.ValidString s = true.

(** No segment but the last starts with ["*"]. *)
Definition wildcardAtEnd (pattern : string) : Prop :=
  forall j s,
    segments pattern !! j = Some s -> HasPrefix s "*" = true ->
    j = length (segments pattern) - 1.

(** * Properties *)

(** ** Strings *)

Lemma append_nil_l (s : string) : "" ++ s = s.
Proof. reflexivity. Qed.

Lemma append_cons (c : ascii) (s t : string) : String c s ++ t = String c (s ++ t).
Proof. reflexivity. Qed.

Lemma append_nil_r (s : string) : s ++ "" = s.
Proof.
  induction s as [|c s IH]; [done|]. by rewrite append_cons, IH.
Qed.

Lemma append_assoc (s1 s2 s3 : string) : (s1 ++ s2) ++ s3 = s1 ++ (s2 ++ s3).
Proof.
  induction s1 as [|c s1 IH]; [done|]. by rewrite !append_cons, IH.
Qed.

Lemma length_append (s t : string) :
  String.length (s ++ t) = String.length s + String.length t.
Proof.
  induction s as [|c s IH]; [done|]. rewrite append_cons. simpl. by rewrite IH.
Qed.

Lemma prefix_nil (s : string) : String.prefix "" s = true.
Proof. by destruct s. Qed.

Lemma Contains_app (x y : string) (c : ascii) :
  Contains (x ++ y) c = Contains x c || Contains y c.
Proof.
  induction x as [|a x IH]; [done|].
  rewrite append_cons. simpl. by rewrite IH, orb_assoc.
Qed.

Lemma take_app (pre r : string) : take (String.length pre) (pre ++ r) = pre.
Proof.
  induction pre as [|c pre IH]; [by destruct r|].
  rewrite append_cons. simpl. by rewrite IH.
Qed.

Lemma drop_app_plus (pre r : string) (n : nat) :
  drop (String.length pre + n) (pre ++ r) = drop n r.
Proof. induction pre as [|c pre IH]; [done|]. by rewrite append_cons. Qed.

(** [Index] for a needle of one byte, byte by byte. *)
Lemma Index_cons (b c : ascii) (s : string) :
  Index (String b s) (String c "")
  = if Ascii.eqb b c then Some 0 else option_map S (Index s (String c "")).
Proof.
  unfold Index. cbn [String.index String.prefix].
  destruct (ascii_dec c b) as [<-|Hne].
  - by rewrite prefix_nil, Ascii.eqb_refl.
  - destruct (Ascii.eqb_spec b c) as [->|_]; [done|].
    by destruct (String.index 0 (String c "") s).
Qed.

Lemma Index_None (s : string) (c : ascii) :
  Index s (String c "") = None <-> Contains s c = false.
Proof.
  induction s as [|b s IH]; [done|].
  rewrite Index_cons. simpl. destruct (Ascii.eqb b c); simpl; [done|].
  rewrite <- IH. by destruct (Index s (String c "")).
Qed.

(** The index [Index] returns splits the string at the first needle. *)
Lemma Index_Some (s : string) (c : ascii) (i : nat) :
  Index s (String c "") = Some i ->
  exists pre post,
    s = pre ++ String c post /\ Contains pre c = false /\ String.length pre = i.
Proof.
  revert i. induction s as [|b s IH]; intros i; [done|].
  rewrite Index_cons. destruct (Ascii.eqb_spec b c) as [->|Hbc].
  - intros [= <-]. by exists "", s.
  - destruct (Index s (String c "")) as [j|]; [|done].
    intros [= <-]. destruct (IH j eq_refl) as (pre & post & -> & Hpre & Hlen).
    exists (String b pre), post. rewrite append_cons. simpl.
    split; [done|]. split; [|by rewrite Hlen].
    rewrite Hpre. by destruct (Ascii.eqb_spec b c).
Qed.

Lemma Index_app (pre post : string) (c : ascii) :
  Contains pre c = false ->
  Index (pre ++ String c post) (String c "") = Some (String.length pre).
Proof.
  induction pre as [|b pre IH]; intros Hpre.
  - by rewrite append_nil_l, Index_cons, Ascii.eqb_refl.
  - rewrite append_cons, Index_cons. simpl in Hpre.
    apply orb_false_elim in Hpre as [-> Hpre]. by rewrite (IH Hpre).
Qed.

(** ** Parameter resolution *)

Section ResolveFacts.
Context `{Formatting}.

(** Ranging over a map and storing a value under every key of it gives, at
    any key, the value stored for that key, or what was there before. *)
Lemma range_store_lookup {A : Type} (g : string -> A -> string)
    (src : gmap string A) (params : gmap string string) (k : string) :
  map_fold (fun k v params => <[k := g k v]> params) params src !! k
  = match src !! k with
    | Some v => Some (g k v)
    | None => params !! k
    end.
Proof.
  revert k.
  apply (map_fold_weak_ind (fun acc (m : gmap string A) =>
    forall k, acc !! k = match m !! k with
                         | Some v => Some (g k v)
                         | None => params !! k
                         end)).
  - intros k. by rewrite lookup_empty.
  - intros i x m acc Hi IH k.
    destruct (decide (i = k)) as [->|Hne].
    + by rewrite !lookup_insert_eq.
    + rewrite !lookup_insert_ne by done. apply IH.
Qed.

Lemma assign_lookup (src params : gmap string string) (k : string) :
  assign src params !! k = (src ∪ params) !! k.
Proof.
  unfold assign. rewrite (range_store_lookup (fun _ v => v)), lookup_union.
  destruct (src !! k), (params !! k); done.
Qed.

Lemma assign_union (src params : gmap string string) :
  assign src params = src ∪ params.
Proof. apply map_eq, assign_lookup. Qed.

Lemma mergeParams_body_lookup ep pv r k :
  mergeParams ep pv r !! k
  = match bodyFields r !! k with
    | Some v => Some (toString v)
    | None =>
        match URLQuery r !! k with
        | Some vs => Some (textproto.first vs)
        | None => (pv ∪ Body ep ∪ Query ep) !! k
        end
    end.
Proof.
  unfold mergeParams, bodyFields.
  rewrite !assign_union, (right_id_L ∅ (∪)).
  assert (Hq : forall params : gmap string string,
    map_fold (fun k _ params => <[k := textproto.ValuesGet (URLQuery r) k]> params)
      params (URLQuery r) !! k
    = match URLQuery r !! k with
      | Some vs => Some (textproto.first vs)
      | None => params !! k
      end).
  { intros params.
    rewrite (range_store_lookup (fun k _ => textproto.ValuesGet (URLQuery r) k)).
    unfold textproto.ValuesGet. by destruct (URLQuery r !! k). }
  destruct (ReqBody r) as [[v|]|]; simpl.
  - destruct (json.decodeMap v) as [body|]; simpl.
    + rewrite (range_store_lookup (fun _ v => toString v)).
      destruct (body !! k); [done|]. rewrite Hq. by rewrite (assoc_L (∪)).
    + rewrite lookup_empty, Hq. by rewrite (assoc_L (∪)).
  - rewrite lookup_empty, Hq. by rewrite (assoc_L (∪)).
  - rewrite lookup_empty, Hq. by rewrite (assoc_L (∪)).
Qed.

(** C1.  The resolved parameters are the merge of the five sources, a later
    source overwriting an earlier one: as a map, the fields of the JSON
    body over the query string over the path variables over the body
    defaults over the query defaults; and key by key, the value of the
    first of these five, in that order, that has the key.  So a name in all
    five resolves to the value of the JSON body, and without the entry of
    the body to the value of the query string, and so on down. *)
Theorem mergeParams_precedence (ep : Endpoint) (pv : gmap string string) (r : Request) :
  mergeParams ep pv r
  = (toString <$> bodyFields r) ∪ (textproto.first <$> URLQuery r)
      ∪ pv ∪ Body ep ∪ Query ep
  /\ forall k : string,
      mergeParams ep pv r !! k
      = match bodyFields r !! k with
        | Some v => Some (toString v)
        | None =>
            match URLQuery r !! k with
            | Some vs => Some (textproto.first vs)
            | None =>
                match pv !! k with
                | Some v => Some v
                | None =>
                    match Body ep !! k with
                    | Some v => Some v
                    | None => Query ep !! k
                    end
                end
            end
        end.
Proof.
  split.
  - apply map_eq. intros k. rewrite mergeParams_body_lookup.
    rewrite !lookup_union, !lookup_fmap.
    destruct (bodyFields r !! k), (URLQuery r !! k), (pv !! k),
      (Body ep !! k), (Query ep !! k); done.
  - intros k. rewrite mergeParams_body_lookup, !lookup_union.
    destruct (bodyFields r !! k), (URLQuery r !! k), (pv !! k),
      (Body ep !! k), (Query ep !! k); done.
Qed.

End ResolveFacts.

(** ** The string form of body fields *)

(** C3, as the code has it.  Every field of a JSON object body resolves to
    the string form of its value: a string as it is, a number as the body
    spells it ([json.Number], unchanged), a boolean as [true] or [false],
    and any other value as the compact JSON text [json.Marshal] gives.  (A
    [float64], which the decoder does not build under [UseNumber], would be
    printed with [%f] and lose its trailing zeros and point.) *)
Theorem body_field_string_form `{Formatting} (ep : Endpoint)
    (pv : gmap string string) (r : Request) (k : string) (v : json.any) :
  bodyFields r !! k = Some v ->
  mergeParams ep pv r !! k = Some (toString v)
  /\ match v with
     | json.Str s => toString v = s
     | json.Number n => toString v = n
     | json.Bool b => toString v = (if b then "true" else "false")
     | json.Float64 t => toString v = TrimRight (TrimRight (Sprintf_f t) "0") "."
     | json.Nil => toString v = "null"
     | json.Slice _ | json.Map _ => toString v = default "" (json.Marshal v)
     end.
Proof.
  intros Hk. split.
  - by rewrite mergeParams_body_lookup, Hk.
  - by destruct v.
Qed.

Lemma body_field_string_form_witness :
  bodyFields numbersReq !! "a" = Some (json.Number "1.50")
  /\ @mergeParams sampleFormatting runEp {[ "id" := "42" ]} numbersReq !! "a"
     = Some "1.50".
Proof.
  assert (Hk : bodyFields numbersReq !! "a" = Some (json.Number "1.50"))
    by (vm_compute; reflexivity).
  split; [exact Hk|].
  exact (proj1 (@body_field_string_form sampleFormatting runEp {[ "id" := "42" ]}
                  numbersReq "a" (json.Number "1.50") Hk)).
Defined.

(** The numbers [1.50] and [1e3] of a body resolve to ["1.50"] and ["1e3"],
    not to ["1.5"] and ["1000"]. *)
Lemma json_number_is_not_canonical :
  @mergeParams sampleFormatting runEp {[ "id" := "42" ]} numbersReq !! "a" = Some "1.50"
  /\ @mergeParams sampleFormatting runEp {[ "id" := "42" ]} numbersReq !! "a" <> Some "1.5"
  /\ @mergeParams sampleFormatting runEp {[ "id" := "42" ]} numbersReq !! "b" = Some "1e3"
  /\ @mergeParams sampleFormatting runEp {[ "id" := "42" ]} numbersReq !! "b" <> Some "1000".
Proof.
  assert (Ha : @mergeParams sampleFormatting runEp {[ "id" := "42" ]} numbersReq !! "a"
               = Some "1.50") by (vm_compute; reflexivity).
  assert (Hb : @mergeParams sampleFormatting runEp {[ "id" := "42" ]} numbersReq !! "b"
               = Some "1e3") by (vm_compute; reflexivity).
  rewrite Ha, Hb. repeat split; discriminate.
Qed.

(** ** Template expansion *)

(** *** Braces *)

Lemma lastOpens_app f x y : lastOpens f (x ++ y) = lastOpens (lastOpens f x) y.
Proof.
  revert f. induction x as [|c x IH]; intros f; [done|].
  rewrite append_cons. simpl. apply IH.
Qed.

(** A string whose last brace opens has it so whatever came before. *)
Lemma lastOpens_any f s : lastOpens false s = true -> lastOpens f s = true.
Proof.
  revert f. induction s as [|c s IH]; intros f; simpl; [done|].
  destruct (Ascii.eqb c "{"); [done|].
  destruct (Ascii.eqb c "}"); [done|]. apply IH.
Qed.

Lemma lastOpens_plain f s : Contains s "{" = false -> lastOpens f s = true -> f = true.
Proof.
  revert f. induction s as [|c s IH]; intros f; simpl; [done|].
  destruct (Ascii.eqb c "{"); simpl; [done|].
  intros Hs Hlast. destruct (Ascii.eqb c "}"); [|by apply IH].
  by specialize (IH false Hs Hlast).
Qed.

Lemma lastOpens_open s : Contains s "}" = false -> lastOpens true s = true.
Proof.
  induction s as [|c s IH]; simpl; [done|].
  intros [-> Hs]%orb_false_elim. destruct (Ascii.eqb c "{"); by apply IH.
Qed.

Lemma opens_app x y : opens (x ++ y) = opens x + opens y.
Proof.
  induction x as [|c x IH]; [done|].
  rewrite append_cons. simpl. rewrite IH. lia.
Qed.

Lemma opens_plain s : Contains s "{" = false -> opens s = 0.
Proof.
  induction s as [|c s IH]; simpl; [done|].
  destruct (Ascii.eqb c "{"); simpl; [done|]. apply IH.
Qed.

(** *** The substitution in one pass *)

Lemma substituteOnce_app (params : gmap string string) pre s :
  Contains pre "{" = false ->
  substituteOnce params (pre ++ s) = option_map (append pre) (substituteOnce params s).
Proof.
  induction pre as [|c pre IH]; intros Hpre.
  - rewrite append_nil_l. by destruct (substituteOnce params s).
  - rewrite append_cons. simpl in *.
    apply orb_false_elim in Hpre as [-> Hpre]. rewrite (IH Hpre).
    by destruct (substituteOnce params s).
Qed.

Lemma substituteName_closed (params : gmap string string) acc name post :
  Contains name "}" = false ->
  substituteName params acc (name ++ String "}" post)
  = option_map (append (default "" (params !! (acc ++ name))))
      (substituteOnce params post).
Proof.
  revert acc. induction name as [|c name IH]; intros acc Hname.
  - rewrite append_nil_l, append_nil_r. done.
  - rewrite append_cons. simpl in *.
    apply orb_false_elim in Hname as [-> Hname]. rewrite (IH _ Hname).
    by rewrite append_assoc.
Qed.

Lemma substituteName_open (params : gmap string string) acc rest :
  Contains rest "}" = false -> substituteName params acc rest = None.
Proof.
  revert acc. induction rest as [|c rest IH]; intros acc Hrest; [done|].
  simpl in *. apply orb_false_elim in Hrest as [-> Hrest]. by apply IH.
Qed.

Lemma substituteOnce_plain (params : gmap string string) s :
  Contains s "{" = false -> substituteOnce params s = Some s.
Proof.
  intros Hs. rewrite <- (append_nil_r s) at 1.
  rewrite (substituteOnce_app _ _ _ Hs). simpl. by rewrite append_nil_r.
Qed.

(** *** The loop of [applyTemplate] *)

Section TemplateFacts.
Context `{Formatting}.

Lemma expand_round fuel (params : gmap string string) tok res :
  expand (S fuel) params tok res
  = match Index res "{" with
    | None => Some (Ok res)
    | Some s =>
        match Index (drop (s + 1) res) "}" with
        | None => Some (Err (UnclosedPlaceholder tok))
        | Some e =>
            expand fuel params tok
              (take s res
               ++ default "" (params !! slice (s + 1) (e + (s + 1)) res)
               ++ drop (e + (s + 1) + 1) res)
        end
    end.
Proof. reflexivity. Qed.

(** A result reached within some fuel is the result with any more fuel. *)
Lemma expand_more_fuel fuel fuel' (params : gmap string string) tok res r :
  expand fuel params tok res = Some r -> fuel <= fuel' ->
  expand fuel' params tok res = Some r.
Proof.
  revert fuel' res. induction fuel as [|fuel IH]; intros fuel' res Hr Hle.
  - discriminate.
  - destruct fuel' as [|fuel']; [lia|].
    rewrite expand_round in *.
    destruct (Index res "{") as [s|]; [|done].
    destruct (Index (drop (s + 1) res) "}") as [e|]; [|done].
    apply IH; [done|lia].
Qed.

Lemma applyTemplate_more_fuel fuel fuel' tokens (params : gmap string string) r :
  applyTemplate fuel tokens params = Some r -> fuel <= fuel' ->
  applyTemplate fuel' tokens params = Some r.
Proof.
  revert r. induction tokens as [|tok tokens IH]; intros r Hr Hle; [done|].
  simpl in *.
  destruct (expand fuel params tok tok) as [[res|e]|] eqn:Hex; [| |done].
  - rewrite (expand_more_fuel _ _ _ _ _ _ Hex Hle).
    destruct (applyTemplate fuel tokens params) as [[out|e]|] eqn:Hat; [| |done].
    + by rewrite (IH _ eq_refl Hle).
    + by rewrite (IH _ eq_refl Hle).
  - by rewrite (expand_more_fuel _ _ _ _ _ _ Hex Hle).
Qed.

(** The three ways of a round.  A string without ["{"] is the result. *)
Lemma expand_done fuel (params : gmap string string) tok res :
  Contains res "{" = false -> expand (S fuel) params tok res = Some (Ok res).
Proof.
  intros Hres%Index_None. by rewrite expand_round, Hres.
Qed.

(** A first ["{"] with no ["}"] behind it is the error. *)
Lemma expand_open fuel (params : gmap string string) tok pre rest :
  Contains pre "{" = false -> Contains rest "}" = false ->
  expand (S fuel) params tok (pre ++ String "{" rest)
  = Some (Err (UnclosedPlaceholder tok)).
Proof.
  intros Hpre Hrest%Index_None.
  rewrite expand_round, (Index_app _ _ _ Hpre).
  replace (drop (String.length pre + 1) (pre ++ String "{" rest)) with rest
    by (by rewrite drop_app_plus).
  by rewrite Hrest.
Qed.

(** A first placeholder gives way to its value, or to nothing where the
    parameters have no such name, and the loop goes on with the string so
    made. *)
Lemma expand_placeholder fuel (params : gmap string string) tok pre name post :
  Contains pre "{" = false -> Contains name "}" = false ->
  expand (S fuel) params tok (pre ++ String "{" (name ++ String "}" post))
  = expand fuel params tok (pre ++ default "" (params !! name) ++ post).
Proof.
  intros Hpre Hname.
  rewrite expand_round, (Index_app _ _ _ Hpre), take_app.
  replace (drop (String.length pre + 1) (pre ++ String "{" (name ++ String "}" post)))
    with (name ++ String "}" post) by (by rewrite drop_app_plus).
  rewrite (Index_app _ _ _ Hname). unfold slice.
  replace (String.length name + (String.length pre + 1) - (String.length pre + 1))
    with (String.length name) by lia.
  replace (String.length name + (String.length pre + 1) + 1)
    with (String.length pre + (1 + (String.length name + 1))) by lia.
  rewrite !drop_app_plus. simpl drop. rewrite take_app.
  replace (String.length name + 1) with (String.length name + 1 + 0) by lia.
  by rewrite <- Nat.add_assoc, drop_app_plus.
Qed.

(** Every string is in one of the three cases. *)
Lemma expand_cases (res : string) :
  Contains res "{" = false
  \/ (exists pre rest,
        res = pre ++ String "{" rest
        /\ Contains pre "{" = false /\ Contains rest "}" = false)
  \/ (exists pre name post,
        res = pre ++ String "{" (name ++ String "}" post)
        /\ Contains pre "{" = false /\ Contains name "}" = false).
Proof.
  destruct (Index res "{") as [s|] eqn:Hs; [|left; by apply Index_None].
  destruct (Index_Some _ _ _ Hs) as (pre & rest & -> & Hpre & _). right.
  destruct (Index rest "}") as [e|] eqn:He.
  - right. destruct (Index_Some _ _ _ He) as (name & post & -> & Hname & _).
    by exists pre, name, post.
  - left. exists pre, rest. repeat split; try done. by apply Index_None.
Qed.

(** The one error of the loop names the token. *)
Lemma expand_error fuel (params : gmap string string) tok res e :
  expand fuel params tok res = Some (Err e) -> e = UnclosedPlaceholder tok.
Proof.
  revert res. induction fuel as [|fuel IH]; intros res; [done|].
  destruct (expand_cases res)
    as [Hres|[(pre & rest & -> & Hpre & Hrest)|(pre & name & post & -> & Hpre & Hname)]].
  - by rewrite expand_done.
  - rewrite expand_open by done. by intros [= <-].
  - rewrite expand_placeholder by done. apply IH.
Qed.

(** An unclosed brace is never expanded away: while the loop runs it stays
    in the string, and the token does not come out of the loop expanded. *)
Lemma expand_unclosed fuel (params : gmap string string) tok res out :
  unclosed res -> expand fuel params tok res <> Some (Ok out).
Proof.
  unfold unclosed. revert res.
  induction fuel as [|fuel IH]; intros res Hres; [done|].
  destruct (expand_cases res)
    as [Hplain|[(pre & rest & -> & Hpre & Hrest)|(pre & name & post & -> & Hpre & Hname)]].
  - by apply lastOpens_plain in Hres.
  - by rewrite expand_open.
  - rewrite expand_placeholder by done. apply IH.
    rewrite lastOpens_app in Hres. simpl in Hres.
    rewrite lastOpens_app in Hres. simpl in Hres.
    rewrite !lastOpens_app. by apply lastOpens_any.
Qed.

(** Text free of ["{"] before the string is carried through the loop. *)
Lemma expand_app fuel (params : gmap string string) tok x y :
  Contains x "{" = false ->
  expand fuel params tok (x ++ y) = option_map (withPrefix x) (expand fuel params tok y).
Proof.
  intros Hx. revert y. induction fuel as [|fuel IH]; intros y; [done|].
  assert (Hxp : forall pre, Contains pre "{" = false -> Contains (x ++ pre) "{" = false)
    by (intros pre Hpre; by rewrite Contains_app, Hx, Hpre).
  destruct (expand_cases y)
    as [Hy|[(pre & rest & -> & Hpre & Hrest)|(pre & name & post & -> & Hpre & Hname)]].
  - by rewrite !expand_done by auto.
  - by rewrite <- append_assoc, !expand_open by auto.
  - rewrite <- append_assoc, !expand_placeholder by auto.
    rewrite append_assoc. apply IH.
Qed.

(** With values free of ["{"] the loop does the substitution in one pass:
    within one round more than the string has ["{"] it ends, in the
    one-pass result, or in the error where the one-pass substitution meets
    a ["{"] without its ["}"]. *)
Lemma expand_one_pass fuel (params : gmap string string) tok res :
  plainValues params -> opens res < fuel ->
  expand fuel params tok res
  = Some (match substituteOnce params res with
          | Some out => Ok out
          | None => Err (UnclosedPlaceholder tok)
          end).
Proof.
  intros Hplain. revert res.
  induction fuel as [|fuel IH]; intros res Hfuel; [lia|].
  destruct (expand_cases res)
    as [Hres|[(pre & rest & -> & Hpre & Hrest)|(pre & name & post & -> & Hpre & Hname)]].
  - by rewrite expand_done, substituteOnce_plain.
  - rewrite expand_open, (substituteOnce_app _ _ _ Hpre) by done. simpl.
    by rewrite (substituteName_open _ _ _ Hrest).
  - assert (Hval : Contains (default "" (params !! name)) "{" = false).
    { destruct (params !! name) as [v|] eqn:Hv; [|done]. by apply (Hplain name). }
    rewrite expand_placeholder by done.
    rewrite <- append_assoc, expand_app by (by rewrite Contains_app, Hpre, Hval).
    rewrite IH.
    + rewrite (substituteOnce_app _ _ _ Hpre). simpl.
      rewrite (substituteName_closed _ _ _ _ Hname). rewrite append_nil_l.
      destruct (substituteOnce params post) as [out|]; simpl; [|done].
      by rewrite append_assoc.
    + rewrite !opens_app in Hfuel. simpl in Hfuel. rewrite opens_app in Hfuel.
      simpl in Hfuel. lia.
Qed.

(** The one-pass substitution fails exactly on an unclosed brace. *)
Lemma substituteOnce_unclosed (params : gmap string string) res :
  substituteOnce params res = None <-> unclosed res.
Proof.
  unfold unclosed.
  assert (Hgen : forall n res, String.length res <= n ->
            (substituteOnce params res = None <-> lastOpens false res = true)).
  { clear res. induction n as [|n IH]; intros res Hn.
    - destruct res; [done|simpl in Hn; lia].
    - destruct (expand_cases res)
        as [Hres|[(pre & rest & -> & Hpre & Hrest)|(pre & name & post & -> & Hpre & Hname)]].
      + rewrite substituteOnce_plain by done. split; [done|].
        by intros ?%lastOpens_plain.
      + rewrite (substituteOnce_app _ _ _ Hpre), lastOpens_app. simpl.
        by rewrite (substituteName_open _ _ _ Hrest), lastOpens_open.
      + rewrite (substituteOnce_app _ _ _ Hpre), lastOpens_app. simpl.
        rewrite (substituteName_closed _ _ _ _ Hname), lastOpens_app. simpl.
        rewrite <- (IH post).
        * by destruct (substituteOnce params post).
        * rewrite length_append in Hn. simpl in Hn.
          rewrite length_append in Hn. simpl in Hn. lia. }
  by apply (Hgen (String.length res)).
Qed.

(** A placeholder of a name the parameters do not have expands to the
    empty string, without error. *)
Lemma expand_absent_name fuel (params : gmap string string) tok pre name post :
  Contains pre "{" = false -> Contains name "}" = false ->
  Contains post "{" = false -> params !! name = None ->
  expand (S (S fuel)) params tok (pre ++ String "{" (name ++ String "}" post))
  = Some (Ok (pre ++ post)).
Proof.
  intros Hpre Hname Hpost Habsent.
  rewrite expand_placeholder, Habsent by done. simpl default.
  rewrite append_nil_l. apply expand_done. by rewrite Contains_app, Hpre, Hpost.
Qed.

(** With values free of ["{"] and fuel above the number of ["{"] of every
    argument, [applyTemplate] ends: in the error where an argument has an
    unclosed brace, and in an argument vector of the same length where
    none has. *)
Lemma applyTemplate_plain fuel tokens (params : gmap string string) :
  plainValues params ->
  Forall (fun tok => opens tok < fuel) tokens ->
  (Exists unclosed tokens
   /\ exists tok, applyTemplate fuel tokens params = Some (Err (UnclosedPlaceholder tok)))
  \/ (Forall (fun tok => ~ unclosed tok) tokens
      /\ exists out, applyTemplate fuel tokens params = Some (Ok out)
                     /\ length out = length tokens).
Proof.
  intros Hplain Hfuel. induction Hfuel as [|tok tokens Htok Hfuel IH].
  - right. split; [constructor|]. by exists [].
  - simpl. rewrite (expand_one_pass _ _ _ _ Hplain Htok).
    destruct (substituteOnce params tok) as [res|] eqn:Hres.
    + assert (Hno : ~ unclosed tok)
        by (intros Hun%(substituteOnce_unclosed params); congruence).
      destruct IH as [[Hex [tok' ->]]|[Hall (out & -> & Hlen)]].
      * left. split; [by right|by exists tok'].
      * right. split; [by constructor|]. exists (res :: out). simpl. by rewrite Hlen.
    + left. split; [left; by apply (substituteOnce_unclosed params)|by exists tok].
Qed.

(** So a matched and authenticated request whose parameters are free of
    ["{"] is answered 400 where an argument of the script has an unclosed
    brace, and no command is run. *)
Lemma unclosed_brace_is_400 (run : Cmd -> Execution) eps fuel r ep pv :
  route eps r = Some (ep, pv) ->
  textproto.HeaderGet (Header r) (header ep) = token ep ->
  plainValues (mergeParams ep pv r) ->
  Forall (fun tok => opens tok < fuel) (Script ep) ->
  Exists unclosed (Script ep) ->
  exists w,
    dispatch run eps fuel r = Served w [CallMergeParams; CallApplyTemplate]
    /\ Status w = Some 400%Z.
Proof.
  intros Hroute Hauth Hplain Hfuel Hex.
  unfold dispatch. rewrite Hroute, Hauth, String.eqb_refl. simpl negb. cbv iota.
  destruct (applyTemplate_plain fuel (Script ep) _ Hplain Hfuel)
    as [[_ [tok ->]]|[Hall _]].
  - by eexists.
  - apply Exists_exists in Hex as (tok & Hin & Hun).
    rewrite Forall_forall in Hall. by destruct (Hall tok Hin).
Qed.

(** The argument [{a}{] with [a = {a}]: every round leaves the string as
    it was. *)
Lemma expand_self_reference fuel tok :
  expand fuel {[ "a" := "{a}" ]} tok "{a}{" = None.
Proof.
  induction fuel as [|fuel IH]; [done|].
  rewrite (expand_placeholder fuel _ tok "" "a" "{") by done.
  by rewrite lookup_singleton_eq.
Qed.

End TemplateFacts.

(** C2.  The code re-scans what it inserts.  The argument [{a}] with the
    parameters [a = {b}] and [b = X] expands to [X]: the value [{b}] of [a]
    is not copied to the output but read as a placeholder in its turn and
    substituted again, with any fuel that lets the loop finish; the
    substitution in one pass gives [{b}]. *)
Theorem applyTemplate_rescans_value (n : nat) :
  applyTemplate (3 + n) ["{a}"] {[ "a" := "{b}"; "b" := "X" ]} = Some (Ok ["X"])
  /\ substituteOnce {[ "a" := "{b}"; "b" := "X" ]} "{a}" = Some "{b}".
Proof.
  split; [|vm_compute; reflexivity].
  apply (applyTemplate_more_fuel 3); [|lia].
  vm_compute. reflexivity.
Qed.

(** C8.  The argument [{a}{] ends in a brace that nothing closes, yet with
    the parameter [a = {a}] it is never answered 400: every round of the
    loop replaces [{a}] by its value [{a}] and leaves the string as it was,
    so whatever the fuel, [applyTemplate] is still running, and so is the
    handler on [GET /echo?a={a}], after [mergeParams] and inside
    [applyTemplate], with no response written. *)
Theorem unclosed_brace_never_answered `{Formatting} (run : Cmd -> Execution) (fuel : nat) :
  unclosed "{a}{"
  /\ applyTemplate fuel ["{a}{"] {[ "a" := "{a}" ]} = None
  /\ loadEndpoints "conf" [File "conf/echo.json" (Decoded loopDef)] = Loaded [loopEp]
  /\ dispatch run [loopEp] fuel loopReq = Running [CallMergeParams; CallApplyTemplate].
Proof.
  assert (Hat : forall tokens,
            applyTemplate fuel ("{a}{" :: tokens) {[ "a" := "{a}" ]} = None).
  { intros tokens. simpl. by rewrite expand_self_reference. }
  split; [reflexivity|]. split; [apply Hat|]. split; [vm_compute; reflexivity|].
  unfold dispatch.
  replace (route [loopEp] loopReq) with (Some (loopEp, (∅ : gmap string string)))
    by (vm_compute; reflexivity).
  replace (negb (textproto.HeaderGet (Header loopReq) (header loopEp) =? token loopEp)%string)
    with false by (vm_compute; reflexivity).
  replace (mergeParams loopEp ∅ loopReq) with ({[ "a" := "{a}" ]} : gmap string string)
    by (vm_compute; reflexivity).
  cbv iota beta.
  change (Script loopEp) with ["echo"; "{a}{"].
  simpl applyTemplate.
  destruct fuel as [|fuel']; [done|].
  rewrite expand_done by done.
  by rewrite expand_self_reference.
Qed.

(** ** Templates *)

Lemma list_ascii_of_string_app (s t : string) :
  list_ascii_of_string (s ++ t)
  = (list_ascii_of_string s ++ list_ascii_of_string t)%list.
Proof.
  induction s as [|c s IH]; [done|]. rewrite append_cons. simpl. by rewrite IH.
Qed.

(** A ["/"] behind bytes that are no encoding does not make them one. *)
Lemma encoded_slash (l t : list nat) :
  l <> [] -> utf8.encoded (l ++ 47 :: t) = utf8.encoded l.
Proof.
  intros Hl. unfold utf8.encoded.
  destruct l as [|a [|b [|c [|d l]]]]; [done|..]; cbn [app];
    change (utf8.cont 47) with false;
    change (utf8.inRange 160 191 47) with false;
    change (utf8.inRange 128 159 47) with false;
    change (utf8.inRange 144 191 47) with false;
    change (utf8.inRange 128 143 47) with false;
    repeat (cbn [andb]; rewrite ?andb_false_r;
            match goal with
            | |- context [if ?b then _ else _] =>
                match b with
                | context [if _ then _ else _] => fail 1
                | _ => destruct b eqn:?
                end
            | |- context [match ?t with [] => _ | _ => _ end] => is_var t; destruct t
            end); try reflexivity; try discriminate.
Qed.

Lemma stray_slash (p t : string) :
  p <> "" -> utf8.stray (p ++ String "/" t) = utf8.stray p.
Proof.
  intros Hp. unfold utf8.stray.
  rewrite list_ascii_of_string_app, map_app.
  change (map nat_of_ascii (list_ascii_of_string (String "/" t)))
    with (47 :: map nat_of_ascii (list_ascii_of_string t)).
  rewrite encoded_slash by (by destruct p).
  by destruct p.
Qed.

(** [regexp.after] on a literal that is not empty: the test of U+FFFD
    before the comparison of the bytes. *)
Lemma after_cons (c : ascii) (lit1 p : string) :
  regexp.after (String c lit1) p
  = let bytewise :=
      match p with
      | String d p' => if Ascii.eqb c d then regexp.after lit1 p' else None
      | "" => None
      end in
    match lit1 with
    | String c2 (String c3 lit3) =>
        if String.eqb (String c (String c2 (String c3 ""))) regexp.replacement
           && utf8.stray p
        then match p with
             | String _ p' => regexp.after lit3 p'
             | "" => None
             end
        else bytewise
    | _ => bytewise
    end.
Proof. by destruct lit1 as [|c2 [|c3 lit3]]. Qed.

Lemma after_app (pre r : string) : regexp.after pre (pre ++ r) = Some r.
Proof.
  induction pre as [|c pre IH]; [by rewrite append_nil_l|].
  rewrite append_cons, after_cons. cbv zeta. rewrite Ascii.eqb_refl, IH.
  destruct pre as [|c2 [|c3 lit3]]; try done.
  destruct (String.eqb_spec (String c (String c2 (String c3 ""))) regexp.replacement)
    as [Heq|]; [|done].
  injection Heq as -> -> ->. reflexivity.
Qed.

(** What a literal takes of a path it takes of the path with a ["/"] and
    more behind it. *)
Lemma after_slash (lit p r t : string) :
  regexp.after lit p = Some r ->
  regexp.after lit (p ++ String "/" t) = Some (r ++ String "/" t).
Proof.
  remember (String.length lit) as n eqn:Hn. revert lit Hn p r.
  induction n as [n IH] using lt_wf_ind. intros lit -> p r.
  destruct lit as [|c lit1]; [by intros [= ->]|].
  rewrite !after_cons. cbv zeta.
  destruct p as [|d p].
  { change (utf8.stray "") with false.
    destruct lit1 as [|c2 [|c3 lit3]]; try done. by rewrite andb_false_r. }
  assert (Hstray : utf8.stray (String d p ++ String "/" t) = utf8.stray (String d p))
    by (by apply stray_slash).
  assert (Hbytes : (if Ascii.eqb c d then regexp.after lit1 p else None) = Some r ->
                   (if Ascii.eqb c d then regexp.after lit1 (p ++ String "/" t) else None)
                   = Some (r ++ String "/" t)).
  { destruct (Ascii.eqb c d); [|done]. apply (IH (String.length lit1)); simpl; [lia|done]. }
  destruct lit1 as [|c2 [|c3 lit3]]; rewrite ?Hstray, append_cons; cbv iota beta;
    try exact Hbytes.
  destruct (_ && _); [|exact Hbytes].
  apply (IH (String.length lit3)); simpl; [lia|done].
Qed.

Lemma Index_step (b : ascii) (s sub : string) :
  Index (String b s) sub
  = if String.prefix sub (String b s) then Some 0 else option_map S (Index s sub).
Proof.
  unfold Index. cbn [String.index].
  destruct (String.prefix sub (String b s)); [done|].
  by destruct (String.index 0 sub s).
Qed.

(** A literal without U+FFFD takes its own bytes and no others. *)
Lemma after_Some (lit p r : string) :
  Index lit regexp.replacement = None -> regexp.after lit p = Some r -> p = lit ++ r.
Proof.
  revert p. induction lit as [|c lit1 IH]; intros p; [by intros _ [= ->]|].
  rewrite Index_step, after_cons. cbv zeta.
  destruct (String.prefix _ _) eqn:Hpre; [done|].
  destruct (Index lit1 regexp.replacement) eqn:Hidx; [done|]. intros _.
  assert (Hbytes : match p with
                   | String d p' => if Ascii.eqb c d then regexp.after lit1 p' else None
                   | "" => None
                   end = Some r -> p = String c lit1 ++ r).
  { destruct p as [|d p]; [done|].
    destruct (Ascii.eqb_spec c d) as [<-|]; [|done].
    intros Hp. rewrite append_cons. f_equal. by apply IH. }
  destruct lit1 as [|c2 [|c3 lit3]]; try exact Hbytes.
  destruct (String.eqb_spec (String c (String c2 (String c3 ""))) regexp.replacement)
    as [Heq|]; [|exact Hbytes].
  injection Heq as -> -> ->. vm_compute in Hpre. by destruct lit3.
Qed.

(** The run before the next ["/"] stays what it is when more path follows
    behind a ["/"]. *)
Lemma span_app (r x r' t : string) :
  regexp.span r = (x, r') ->
  regexp.span (r ++ String "/" t) = (x, r' ++ String "/" t).
Proof.
  revert x r'. induction r as [|c r IH]; intros x r'.
  - simpl. by intros [= <- <-].
  - rewrite append_cons. simpl. destruct (Ascii.eqb c "/").
    + by intros [= <- <-].
    + destruct (regexp.span r) as [x0 r0]. intros [= <- <-].
      by rewrite (IH x0 r0 eq_refl).
Qed.

(** Dot-star before the end of the expression takes all of a rest without
    line feeds. *)
Lemma greedy_all (k : string -> option (list string)) (rest : string) caps :
  k "" = Some caps ->
  Contains rest regexp.LF = false ->
  regexp.greedy k rest = Some (rest :: caps).
Proof.
  intros Hk. induction rest as [|c rest IH]; simpl; [by rewrite Hk|].
  intros [Hc Hrest]%orb_false_elim. by rewrite Hc, (IH Hrest).
Qed.

(** Where the pieces before a wildcard match [p], the pieces with the
    wildcard match [p], a ["/"] and any rest without line feeds, and the
    submatch of the wildcard is that rest. *)
Lemma submatches_rest ps p name rest caps :
  Forall notRest ps ->
  regexp.submatches ps p = Some caps ->
  Contains rest regexp.LF = false ->
  regexp.submatches (ps ++ [regexp.Rest name])%list (p ++ String "/" rest)
  = Some (caps ++ [rest])%list.
Proof.
  intros Hps. revert p caps.
  induction Hps as [|piece ps Hpiece Hps IH]; intros p caps Hm Hrest.
  - simpl in Hm. destruct (String.eqb_spec p ""); [|done].
    injection Hm as <-. subst p.
    change (match regexp.after "/" ("/" ++ rest) with
            | Some r => regexp.greedy (regexp.submatches []) r
            | None => None
            end = Some [rest]).
    rewrite after_app. by apply (greedy_all _ _ []).
  - destruct piece as [s|n|n]; [| |done]; simpl in *.
    + destruct (regexp.after ("/" ++ s) p) as [r|] eqn:Hafter; [|done].
      rewrite (after_slash _ _ _ _ Hafter). by apply IH.
    + destruct (regexp.after "/" p) as [r|] eqn:Hafter; [|done].
      rewrite (after_slash _ _ _ _ Hafter).
      destruct (regexp.span r) as [x r'] eqn:Hspan.
      rewrite (span_app _ _ _ _ Hspan).
      destruct (String.eqb x ""); [done|].
      destruct (regexp.submatches ps r') as [caps'|] eqn:Hcaps; [|done].
      injection Hm as <-. by rewrite (IH _ _ Hcaps Hrest).
Qed.

(** Dot-star before the end of the expression matches no rest with a line
    feed in it. *)
Lemma greedy_line_feed (k : string -> option (list string)) (rest : string) :
  (forall r, r <> "" -> k r = None) ->
  Contains rest regexp.LF = true ->
  regexp.greedy k rest = None.
Proof.
  intros Hk. induction rest as [|c rest IH]; simpl; [done|].
  destruct (Ascii.eqb c regexp.LF) eqn:Hc; [by rewrite Hk|].
  simpl. intros Hrest. by rewrite (IH Hrest), Hk.
Qed.

Lemma HasPrefix_star s : HasPrefix s "*" = true -> exists s', s = String "*" s'.
Proof.
  unfold HasPrefix. destruct s as [|c s]; [discriminate|].
  cbn [String.prefix]. destruct (ascii_dec "*" c) as [<-|]; [|discriminate].
  intros _. by exists s.
Qed.

Lemma compileSegs_cons i n s segs b wild :
  compileSegs i n (s :: segs) b wild
  = if String.eqb s "" then compileSegs (S i) n segs b wild
    else if HasPrefix s ":" then
      compileSegs (S i) n segs (b ++ [regexp.Segment (drop 1 s)]) wild
    else if HasPrefix s "*" then
      if negb (i =? n - 1)%nat then Err WildcardNotLast
      else compileSegs (S i) n segs (b ++ [regexp.Rest (drop 1 s)]) true
    else compileSegs (S i) n segs (b ++ [regexp.Literal s]) wild.
Proof. reflexivity. Qed.

(** A wildcard at any index but the last makes the loop of [compileURI]
    stop with its error. *)
Lemma compileSegs_misplaced i n segs b wild j s :
  segs !! j = Some s -> HasPrefix s "*" = true -> i + j <> n - 1 ->
  compileSegs i n segs b wild = Err WildcardNotLast.
Proof.
  revert i j b wild. induction segs as [|s0 segs IH]; intros i j b wild Hj Hs Hij; [done|].
  rewrite compileSegs_cons. destruct j as [|j]; simpl in Hj.
  - injection Hj as ->. rewrite Hs. destruct (HasPrefix_star _ Hs) as [s' ->].
    change (String.eqb (String "*" s') "") with false.
    change (HasPrefix (String "*" s') ":") with false. cbv iota.
    replace (i =? n - 1)%nat with false; [done|].
    symmetry. apply Nat.eqb_neq. lia.
  - assert (Hnext : forall b wild, compileSegs (S i) n segs b wild = Err WildcardNotLast)
      by (intros; apply (IH (S i) j); [done..|lia]).
    destruct (String.eqb s0 ""); [done|].
    destruct (HasPrefix s0 ":"); [done|].
    destruct (HasPrefix s0 "*"); [|done].
    by destruct (negb _).
Qed.

Lemma compileURI_misplaced pattern j s :
  Split (TrimPrefix pattern "/") "/" !! j = Some s ->
  HasPrefix s "*" = true ->
  j <> length (Split (TrimPrefix pattern "/") "/") - 1 ->
  compileURI pattern = Refused WildcardNotLast.
Proof.
  intros Hj Hs Hlast. unfold compileURI.
  by rewrite (compileSegs_misplaced 0 _ _ [] false j s Hj Hs).
Qed.

Lemma submatches_length ps p caps :
  Forall notRest ps -> regexp.submatches ps p = Some caps ->
  length caps = length (flat_map regexp.groupName ps).
Proof.
  intros Hps. revert p caps.
  induction Hps as [|piece ps Hpiece Hps IH]; intros p caps; simpl.
  - destruct (String.eqb p ""); [|done]. by intros [= <-].
  - destruct piece as [s|n|n]; [| |done]; simpl.
    + destruct (regexp.after _ p) as [r|]; [|done]. apply IH.
    + destruct (regexp.after _ p) as [r|]; [|done].
      destruct (regexp.span r) as [x r'].
      destruct (String.eqb x ""); [done|].
      destruct (regexp.submatches ps r') as [caps'|] eqn:Hcaps; [|done].
      intros [= <-]. simpl. f_equal. by apply (IH r').
Qed.

(** The last name [collect] meets gets the submatch of its index. *)
Lemma collect_last names i m out name v :
  name <> "" -> i + length names <> 0 ->
  m !! (i + length names) = Some v ->
  collect i (names ++ [name]) m out !! name = Some v.
Proof.
  intros Hname. revert i out.
  induction names as [|n0 names IH]; intros i out Hi Hv; simpl in *.
  - rewrite Nat.add_0_r in *.
    destruct (Nat.eqb_spec i 0); [done|].
    destruct (String.eqb_spec name ""); [done|]. simpl.
    by rewrite lookup_insert_eq, Hv.
  - replace (i + S (length names)) with (S i + length names) in * by lia.
    destruct ((i =? 0)%nat || String.eqb n0 ""); by apply IH.
Qed.

(** A wildcard at the end of a template: where the template before it
    matches [p], the whole template matches [p] followed by ["/"] and any
    rest free of line feeds, empty or with ["/"] in it, and the variable of
    the wildcard is that rest. *)
Lemma wildcard_captures_rest ep ps name p rest caps :
  pathRe ep = (ps ++ [regexp.Rest name])%list -> Forall notRest ps -> name <> "" ->
  regexp.submatches ps p = Some caps ->
  Contains rest regexp.LF = false ->
  exists vars,
    pathVars ep (p ++ String "/" rest) = Some vars /\ vars !! name = Some rest.
Proof.
  intros Hre Hps Hname Hp Hrest.
  unfold pathVars, regexp.FindStringSubmatch. rewrite Hre.
  rewrite (submatches_rest _ _ name _ _ Hps Hp Hrest). simpl.
  eexists. split; [reflexivity|].
  unfold regexp.SubexpNames. rewrite flat_map_app. simpl.
  apply (collect_last ("" :: flat_map regexp.groupName ps) 0); [done|simpl; lia|].
  simpl. rewrite <- (submatches_length _ _ _ Hps Hp).
  by rewrite lookup_app_r, Nat.sub_diag.
Qed.

(** C9.  The template [/files/*rest] is loaded, and its wildcard takes a
    rest with ["/"] in it and the empty rest; but the path
    [/files/a], line feed, [b] is not matched at all, and the request for
    it is answered 404: the dot of the expression does not match a line
    feed. *)
Theorem wildcard_refuses_line_feed `{Formatting} (run : Cmd -> Execution) (fuel : nat) :
  loadEndpoints "conf" [File "conf/files.json" (Decoded filesDef)] = Loaded [filesEp]
  /\ pathVars filesEp "/files/a/b" = Some {[ "rest" := "a/b" ]}
  /\ pathVars filesEp "/files/" = Some {[ "rest" := "" ]}
  /\ pathVars filesEp (Path lineFeedReq) = None
  /\ exists w, dispatch run [filesEp] fuel lineFeedReq = Served w []
               /\ Status w = Some 404%Z.
Proof.
  repeat split; try (vm_compute; reflexivity).
  unfold dispatch.
  replace (route [filesEp] lineFeedReq) with (@None (Endpoint * gmap string string))
    by (vm_compute; reflexivity).
  eexists. split; reflexivity.
Qed.

(** ** Loading *)

(** An endpoint [mustEndpointFromFile] returns, field by field. *)
Lemma mustEndpointFromFile_loaded path f ep :
  mustEndpointFromFile path f = Loaded ep ->
  exists def,
    f = Decoded def
    /\ URI ep = URI def /\ Method ep = Method def /\ Script ep = Script def
    /\ Script def <> []
    /\ parseAuth (Auth def) = Ok (header ep, token ep)
    /\ TTL ep = (if String.eqb (TTL def) "" then "8s" else TTL def)
    /\ time.ParseDuration (TTL ep) = Some (timeout ep)
    /\ Error ep = (if (Error def =? 0)%Z then 500%Z else Error def)
    /\ compileURI (URI def) = Loaded (pathRe ep, wildcard ep).
Proof.
  unfold mustEndpointFromFile. destruct f as [| |def]; [done..|].
  destruct (_ || _) eqn:Hreq; [done|].
  destruct (parseAuth (Auth def)) as [[h t]|e] eqn:Hauth; [|done].
  destruct (time.ParseDuration _) as [d|] eqn:Hd; [|done].
  destruct (compileURI (URI def)) as [[re wild]|e|] eqn:Hre; [|done..].
  intros [= <-]. exists def. simpl.
  repeat split; try done.
  intros Hs. rewrite Hs in Hreq. simpl in Hreq.
  by rewrite !orb_true_r in Hreq.
Qed.

Lemma parseAuth_nonempty a h t :
  parseAuth a = Ok (h, t) -> h <> "" /\ t <> "".
Proof.
  unfold parseAuth.
  destruct (SplitN a ":" 2) as [|p0 [|p1 [|? ?]]]; try done.
  destruct (String.eqb_spec (TrimSpace p0) ""); [done|].
  destruct (String.eqb_spec (TrimSpace p1) ""); [done|].
  by intros [= <- <-].
Qed.

(** The endpoints [walk] returns are those it was given and those of the
    files it met. *)
Lemma walk_loaded entries acc eps ep :
  walk entries acc = Loaded eps -> In ep eps ->
  In ep acc
  \/ exists p f, In (File p f) entries /\ mustEndpointFromFile p f = Loaded ep.
Proof.
  revert acc. induction entries as [|x entries IH]; intros acc Hw Hin; simpl in Hw.
  - left. by injection Hw as ->.
  - destruct x as [|p|p f]; [done| |].
    + destruct (IH _ Hw Hin) as [?|(p' & f' & ? & ?)]; [by left|].
      right. exists p', f'. split; [by right|done].
    + destruct (negb _).
      * destruct (IH _ Hw Hin) as [?|(p' & f' & ? & ?)]; [by left|].
        right. exists p', f'. split; [by right|done].
      * destruct (mustEndpointFromFile p f) as [ep'|e|] eqn:Hm; [|done..].
        destruct (IH _ Hw Hin) as [Hacc|(p' & f' & ? & ?)].
        -- apply in_app_or in Hacc as [?|[<-|[]]]; [by left|].
           right. exists p, f. split; [by left|done].
        -- right. exists p', f'. split; [by right|done].
Qed.

Section Sorting.
Context {A : Type} (less : A -> A -> bool).

Lemma insertSorted_perm x l : Permutation (insertSorted less x l) (x :: l).
Proof.
  induction l as [|y l IH]; simpl; [done|].
  destruct (less x y); [done|].
  rewrite IH. apply perm_swap.
Qed.

Lemma sortSlice_perm l : Permutation (sortSlice less l) l.
Proof.
  unfold sortSlice.
  assert (Hgen : forall acc, Permutation
            (foldl (fun sorted x => insertSorted less x sorted) acc l) (acc ++ l)).
  { induction l as [|x l IH]; intros acc; simpl.
    - by rewrite app_nil_r.
    - rewrite IH, insertSorted_perm. simpl. apply Permutation_middle. }
  apply (Hgen []).
Qed.

Hypothesis less_trans : forall a b c, less a b = true -> less b c = true -> less a c = true.
Hypothesis less_asym : forall a b, less a b = true -> less b a = false.

Lemma insertSorted_sorted x l :
  StronglySorted (notBelow less) l -> StronglySorted (notBelow less) (insertSorted less x l).
Proof.
  induction 1 as [|y l Hl IH Hy]; simpl.
  - repeat constructor.
  - destruct (less x y) eqn:Hxy.
    + constructor; [by constructor|].
      constructor; [by apply less_asym|].
      rewrite Forall_forall in *. intros z Hz. specialize (Hy z Hz).
      unfold notBelow in *. destruct (less z x) eqn:Hzx; [|done].
      by rewrite (less_trans _ _ _ Hzx Hxy) in Hy.
    + constructor; [done|].
      apply (Permutation_Forall (Permutation_sym (insertSorted_perm x l))).
      by constructor.
Qed.

Lemma sortSlice_sorted l : StronglySorted (notBelow less) (sortSlice less l).
Proof.
  unfold sortSlice.
  assert (Hgen : forall acc, StronglySorted (notBelow less) acc ->
    StronglySorted (notBelow less) (foldl (fun sorted x => insertSorted less x sorted) acc l)).
  { induction l as [|x l IH]; intros acc Hacc; simpl; [done|].
    by apply IH, insertSorted_sorted. }
  apply Hgen. constructor.
Qed.

End Sorting.

Lemma ltb_spec (s1 s2 : string) :
  String.ltb s1 s2 = true <-> String.leb s2 s1 = false.
Proof.
  unfold String.ltb, String.leb. rewrite (String.compare_antisym s2 s1).
  by destruct (String.compare s1 s2).
Qed.

Lemma lessURI_trans a b c :
  lessURI a b = true -> lessURI b c = true -> lessURI a c = true.
Proof.
  unfold lessURI. rewrite !ltb_spec. intros Hba Hcb.
  destruct (String.leb (URI c) (URI a)) eqn:Hca; [|done].
  destruct (String.leb_total (URI a) (URI b)) as [Hab|Hab]; [|congruence].
  assert (Hcb' : String.le (URI c) (URI b)).
  { transitivity (URI a); unfold String.le; [by rewrite Hca | by rewrite Hab]. }
  unfold String.le in Hcb'. by rewrite Hcb in Hcb'.
Qed.

Lemma lessURI_asym a b : lessURI a b = true -> lessURI b a = false.
Proof.
  unfold lessURI, String.ltb. rewrite (String.compare_antisym (URI b) (URI a)).
  by destruct (String.compare (URI a) (URI b)).
Qed.

(** What [loadEndpoints] returns: a registry that is not empty, in the
    order of the templates, of endpoints that each come from a file. *)
Lemma loadEndpoints_loaded dir entries eps :
  loadEndpoints dir entries = Loaded eps ->
  eps <> [] /\ sortedByURI eps
  /\ forall ep, In ep eps ->
       exists p f, In (File p f) entries /\ mustEndpointFromFile p f = Loaded ep.
Proof.
  unfold loadEndpoints.
  destruct (walk entries []) as [eps0|e|] eqn:Hw; [|done..].
  destruct (length eps0 =? 0)%nat eqn:Hlen; [done|].
  intros [= <-]. apply Nat.eqb_neq in Hlen.
  pose proof (sortSlice_perm lessURI eps0) as Hperm.
  split; [|split].
  - intros Hnil. rewrite Hnil in Hperm.
    apply Permutation_nil in Hperm. by subst eps0.
  - apply (sortSlice_sorted lessURI lessURI_trans lessURI_asym).
  - intros ep Hin. apply (Permutation_in _ Hperm) in Hin.
    destruct (walk_loaded _ _ _ _ Hw Hin) as [[]|Hfile]. done.
Qed.

(** C4, as the code has it.  Every endpoint of a loaded registry carries as
    timeout the duration its ttl parses to, where an absent ttl counts as
    ["8s"], eight seconds; and a definition whose ttl does not parse is
    refused.  Nothing is asked of the sign of the duration. *)
Theorem loaded_timeout_is_parsed_ttl dir entries eps ep :
  loadEndpoints dir entries = Loaded eps -> In ep eps ->
  exists p def,
    In (File p (Decoded def)) entries
    /\ TTL ep = (if String.eqb (TTL def) "" then "8s" else TTL def)
    /\ time.ParseDuration (TTL ep) = Some (timeout ep)
    /\ (TTL def = "" -> timeout ep = (8 * time.Second)%Z)
    /\ forall path def',
         time.ParseDuration (if String.eqb (TTL def') "" then "8s" else TTL def') = None ->
         exists e, mustEndpointFromFile path (Decoded def') = Refused e.
Proof.
  intros Hload Hin.
  destruct (loadEndpoints_loaded _ _ _ Hload) as (_ & _ & Hfiles).
  destruct (Hfiles ep Hin) as (p & f & Hf & Hm).
  destruct (mustEndpointFromFile_loaded _ _ _ Hm)
    as (def & -> & _ & _ & _ & _ & _ & Httl & Hd & _).
  exists p, def. repeat split; try done.
  - intros Hnone. rewrite Httl, Hnone in Hd. simpl in Hd.
    by injection Hd as <-.
  - intros path def' Hbad. unfold mustEndpointFromFile.
    destruct (_ || _); [by eexists|].
    destruct (parseAuth (Auth def')) as [[h t]|e]; [|by eexists].
    rewrite Hbad. by eexists.
Qed.

(** ** Routing and the handler *)

(** The endpoint [route] selects is in the registry, matches the request,
    and no endpoint before it does. *)
Lemma route_Some eps r ep pv :
  route eps r = Some (ep, pv) ->
  exists i,
    eps !! i = Some ep
    /\ ReqMethod r = Method ep /\ pathVars ep (Path r) = Some pv
    /\ forall j e, j < i -> eps !! j = Some e -> ~ matches e r.
Proof.
  induction eps as [|e eps IH]; simpl; [done|].
  destruct (String.eqb_spec (ReqMethod r) (Method e)) as [Hm|Hm]; simpl.
  - destruct (pathVars e (Path r)) as [vars|] eqn:Hp.
    + intros [= <- <-]. exists 0. repeat split; try done. intros; lia.
    + intros (i & Hi & ? & ? & Hbefore)%IH. exists (S i). repeat split; try done.
      intros [|j] e' Hj He'; simpl in He'.
      * injection He' as <-. intros [_ [? Hsome]]. congruence.
      * apply (Hbefore j); [lia|done].
  - intros (i & Hi & ? & ? & Hbefore)%IH. exists (S i). repeat split; try done.
    intros [|j] e' Hj He'; simpl in He'.
    + injection He' as <-. by intros [? _].
    + apply (Hbefore j); [lia|done].
Qed.

Lemma route_None eps r :
  route eps r = None -> forall e, In e eps -> ~ matches e r.
Proof.
  induction eps as [|e eps IH]; simpl; [done|].
  destruct (String.eqb_spec (ReqMethod r) (Method e)) as [Hm|Hm]; simpl.
  - destruct (pathVars e (Path r)) as [vars|] eqn:Hp; [done|].
    intros Hr e' [<-|Hin]; [|by apply IH].
    intros [_ [? Hsome]]. congruence.
  - intros Hr e' [<-|Hin]; [|by apply IH]. by intros [? _].
Qed.

(** The endpoint that matches first alone decides what [route] answers. *)
Lemma route_single eps r ep pv :
  route eps r = Some (ep, pv) -> route [ep] r = Some (ep, pv).
Proof.
  intros (i & _ & Hm & Hp & _)%route_Some. simpl.
  rewrite Hm, String.eqb_refl. simpl. by rewrite Hp.
Qed.

Section HandlerFacts.
Context `{Formatting}.

(** C5.  A request that matches an endpoint of a loaded registry without
    the header of the endpoint, or with another value in it than the
    token, is answered 401, and the handler does nothing else: it calls
    neither [mergeParams] nor [applyTemplate] and runs no command. *)
Theorem failed_authentication_is_401 (run : Cmd -> Execution)
    dir entries eps fuel r ep pv :
  loadEndpoints dir entries = Loaded eps ->
  route eps r = Some (ep, pv) ->
  Header r !! textproto.CanonicalMIMEHeaderKey (header ep) = None
  \/ textproto.HeaderGet (Header r) (header ep) <> token ep ->
  exists w,
    dispatch run eps fuel r = Served w []
    /\ Status w = Some 401%Z
    /\ httpError "unauthorized" 401 (newResponse r) = Some w.
Proof.
  intros Hload Hroute Hbad.
  assert (Hne : textproto.HeaderGet (Header r) (header ep) <> token ep).
  { destruct Hbad as [Habsent|?]; [|done].
    destruct (route_Some _ _ _ _ Hroute) as (i & Hi & _).
    apply list_elem_of_lookup_2, list_elem_of_In in Hi.
    destruct (loadEndpoints_loaded _ _ _ Hload) as (_ & _ & Hfiles).
    destruct (Hfiles ep Hi) as (p & f & _ & Hm).
    destruct (mustEndpointFromFile_loaded _ _ _ Hm)
      as (def & _ & _ & _ & _ & _ & Hauth & _).
    apply parseAuth_nonempty in Hauth as [_ Htok].
    unfold textproto.HeaderGet, textproto.ValuesGet. by rewrite Habsent. }
  unfold dispatch. rewrite Hroute.
  destruct (String.eqb_spec (textproto.HeaderGet (Header r) (header ep)) (token ep));
    [done|].
  eexists. split; [reflexivity|]. split; reflexivity.
Qed.

(** C6.  The registry [loadEndpoints] returns is in the order of the
    templates, and the handler answers with the first endpoint of it, in
    that order, whose method is the method of the request and whose
    expression matches the path: no endpoint before the selected one matches,
    the answer is the one the selected endpoint alone would give, and where
    no endpoint matches the answer is 404. *)
Theorem first_match_in_sorted_order (run : Cmd -> Execution)
    dir entries eps fuel r :
  loadEndpoints dir entries = Loaded eps ->
  sortedByURI eps
  /\ match route eps r with
     | Some (ep, pv) =>
         (exists i,
            eps !! i = Some ep
            /\ ReqMethod r = Method ep /\ pathVars ep (Path r) = Some pv
            /\ forall j e, j < i -> eps !! j = Some e -> ~ matches e r)
         /\ dispatch run eps fuel r = dispatch run [ep] fuel r
     | None =>
         (forall e, In e eps -> ~ matches e r)
         /\ exists w, dispatch run eps fuel r = Served w []
                      /\ Status w = Some 404%Z
     end.
Proof.
  intros Hload. split; [by apply (loadEndpoints_loaded _ _ _ Hload)|].
  destruct (route eps r) as [[ep pv]|] eqn:Hroute.
  - split; [by apply route_Some|].
    unfold dispatch. by rewrite Hroute, (route_single _ _ _ _ Hroute).
  - split; [by apply route_None|].
    unfold dispatch. rewrite Hroute. eexists. split; reflexivity.
Qed.




End HandlerFacts.

(** ** The name of the authentication header *)

Ltac each_byte c := destruct c as [[] [] [] [] [] [] [] []]; vm_compute; reflexivity.

Lemma upperByte_lowerByte c : upperByte (lowerByte c) = upperByte c.
Proof. each_byte c. Qed.

Lemma lowerByte_lowerByte c : lowerByte (lowerByte c) = lowerByte c.
Proof. each_byte c. Qed.

Lemma upperByte_upperByte c : upperByte (upperByte c) = upperByte c.
Proof. each_byte c. Qed.

Lemma valid_lowerByte c :
  textproto.validHeaderFieldByte (lowerByte c) = textproto.validHeaderFieldByte c.
Proof. each_byte c. Qed.

Lemma valid_upperByte c :
  textproto.validHeaderFieldByte (upperByte c) = textproto.validHeaderFieldByte c.
Proof. each_byte c. Qed.

(** Names that differ in the case of their letters only have one canonical
    form, and are tokens together. *)
Lemma canonical_fold upper a b :
  ToLower a = ToLower b -> textproto.canonical upper a = textproto.canonical upper b.
Proof.
  revert upper b. induction a as [|c a IH]; intros upper [|d b]; try done.
  simpl. intros [= Hcd Hab].
  assert (Hu : upperByte c = upperByte d)
    by (rewrite <- (upperByte_lowerByte c), Hcd; apply upperByte_lowerByte).
  destruct upper; [rewrite Hu|rewrite Hcd]; f_equal; by apply IH.
Qed.

Lemma valid_fold a b :
  ToLower a = ToLower b ->
  allBytes textproto.validHeaderFieldByte a = allBytes textproto.validHeaderFieldByte b.
Proof.
  revert b. induction a as [|c a IH]; intros [|d b]; try done.
  simpl. intros [= Hcd Hab].
  rewrite <- (valid_lowerByte c), Hcd, valid_lowerByte. f_equal. by apply IH.
Qed.

Lemma valid_canonical upper s :
  allBytes textproto.validHeaderFieldByte (textproto.canonical upper s)
  = allBytes textproto.validHeaderFieldByte s.
Proof.
  revert upper. induction s as [|c s IH]; intros upper; [done|]. simpl.
  rewrite IH. by destruct upper; rewrite ?valid_upperByte, ?valid_lowerByte.
Qed.

Lemma canonical_canonical upper s :
  textproto.canonical upper (textproto.canonical upper s) = textproto.canonical upper s.
Proof.
  revert upper. induction s as [|c s IH]; intros upper; [done|]. simpl.
  destruct upper; rewrite ?upperByte_upperByte, ?lowerByte_lowerByte; f_equal; apply IH.
Qed.

Lemma CanonicalMIMEHeaderKey_idemp s :
  textproto.CanonicalMIMEHeaderKey (textproto.CanonicalMIMEHeaderKey s)
  = textproto.CanonicalMIMEHeaderKey s.
Proof.
  unfold textproto.CanonicalMIMEHeaderKey.
  destruct (allBytes _ s) eqn:Hs.
  - by rewrite valid_canonical, Hs, canonical_canonical.
  - by rewrite Hs.
Qed.

(** In a header map of the server, the header read under a name is the
    header read under any other spelling of the name. *)
Lemma HeaderGet_fold (h : textproto.Values) a b :
  serverHeader h -> ToLower a = ToLower b ->
  textproto.HeaderGet h a = textproto.HeaderGet h b.
Proof.
  intros Hh Hab. unfold textproto.HeaderGet, textproto.CanonicalMIMEHeaderKey.
  rewrite (valid_fold _ _ Hab).
  destruct (allBytes _ b) eqn:Hb.
  - by rewrite (canonical_fold _ _ _ Hab).
  - assert (Ha : allBytes textproto.validHeaderFieldByte a = false)
      by (by rewrite (valid_fold _ _ Hab)).
    unfold textproto.ValuesGet.
    destruct (h !! a) as [vs|] eqn:Hga.
    { destruct (Hh _ _ Hga) as [Hv _]. congruence. }
    destruct (h !! b) as [vs|] eqn:Hgb; [|done].
    destruct (Hh _ _ Hgb) as [Hv _]. congruence.
Qed.

Section AuthFacts.
Context `{Formatting}.

(** With the token in the header the handler goes on to resolve the
    parameters, and answers otherwise than it does to a failed
    authentication. *)
Lemma dispatch_authenticated run eps fuel r ep pv :
  route eps r = Some (ep, pv) ->
  (dispatch run eps fuel r <> unauthorized r
   <-> textproto.HeaderGet (Header r) (header ep) = token ep).
Proof.
  intros Hroute. unfold dispatch, unauthorized. rewrite Hroute.
  assert (Hw : exists w, httpError "unauthorized" 401 (newResponse r) = Some w)
    by (eexists; reflexivity).
  destruct Hw as [w Hw]. rewrite Hw.
  destruct (String.eqb_spec (textproto.HeaderGet (Header r) (header ep)) (token ep))
    as [Heq|Hne]; simpl negb; cbv iota.
  - split; [done|]. intros _.
    destruct (applyTemplate _ _ _) as [[[|argv0 argv]|e]|]; try done.
    destruct (failure _); [by destruct (WriteHeader _ _)|done].
  - split; [by intros []|done].
Qed.

(** C10.  On a matched endpoint of a loaded registry, and a header map as
    the server delivers it, the request passes authentication exactly when
    it has a header whose name is the declared name up to canonical
    capitalization and whose value, the first if the header is repeated, is
    the token; and declaring the name with other capitals changes nothing
    in the answer. *)
Theorem header_name_case_is_immaterial (run : Cmd -> Execution)
    dir entries eps fuel r ep pv :
  loadEndpoints dir entries = Loaded eps ->
  route eps r = Some (ep, pv) ->
  serverHeader (Header r) ->
  (dispatch run eps fuel r <> unauthorized r
   <-> exists k vs,
         Header r !! k = Some vs
         /\ textproto.CanonicalMIMEHeaderKey k
            = textproto.CanonicalMIMEHeaderKey (header ep)
         /\ textproto.first vs = token ep)
  /\ forall h,
       ToLower h = ToLower (header ep) ->
       dispatch run [withHeader h ep] fuel r = dispatch run eps fuel r.
Proof.
  intros Hload Hroute Hserver.
  assert (Htok : token ep <> "").
  { destruct (route_Some _ _ _ _ Hroute) as (i & Hi & _).
    apply list_elem_of_lookup_2, list_elem_of_In in Hi.
    destruct (loadEndpoints_loaded _ _ _ Hload) as (_ & _ & Hfiles).
    destruct (Hfiles ep Hi) as (p & f & _ & Hm).
    destruct (mustEndpointFromFile_loaded _ _ _ Hm)
      as (def & _ & _ & _ & _ & _ & Hauth & _).
    by apply parseAuth_nonempty in Hauth as [_ ?]. }
  split.
  - rewrite (dispatch_authenticated _ _ _ _ _ _ Hroute).
    unfold textproto.HeaderGet, textproto.ValuesGet. split.
    + intros Hget.
      destruct (Header r !! textproto.CanonicalMIMEHeaderKey (header ep))
        as [vs|] eqn:Hk; [|congruence].
      exists (textproto.CanonicalMIMEHeaderKey (header ep)), vs.
      by rewrite CanonicalMIMEHeaderKey_idemp.
    + intros (k & vs & Hk & Hcanon & Hfirst).
      destruct (Hserver _ _ Hk) as [_ Hkk].
      by rewrite <- Hcanon, Hkk, Hk.
  - intros h Hh.
    pose proof (route_Some _ _ _ _ Hroute) as (i & _ & Hm & Hp & _).
    unfold dispatch. rewrite Hroute. simpl route.
    rewrite Hm, String.eqb_refl. simpl negb. cbv iota.
    change (pathVars (withHeader h ep) (Path r)) with (pathVars ep (Path r)).
    rewrite Hp. simpl header. simpl token.
    rewrite (HeaderGet_fold _ _ _ Hserver Hh).
    reflexivity.
Qed.

End AuthFacts.

(** ** The statements at the samples *)

Lemma loaded_timeout_is_parsed_ttl_witness :
  loadEndpoints "conf" [File "conf/run.json" (Decoded runDef)] = Loaded [runEp]
  /\ time.ParseDuration (TTL runEp) = Some (timeout runEp).
Proof.
  assert (Hload : loadEndpoints "conf" [File "conf/run.json" (Decoded runDef)]
                  = Loaded [runEp]) by (vm_compute; reflexivity).
  split; [exact Hload|].
  destruct (loaded_timeout_is_parsed_ttl "conf" _ [runEp] runEp Hload
              (or_introl eq_refl)) as (p & def & _ & _ & Hd & _).
  exact Hd.
Defined.

(** A definition with the ttl ["-1s"] is loaded, with a timeout of minus one
    second: not every loaded endpoint has a timeout above zero. *)
Lemma negative_ttl_is_loaded :
  ~ (forall dir entries eps ep,
       loadEndpoints dir entries = Loaded eps -> In ep eps -> (0 < timeout ep)%Z).
Proof.
  intros Hpos.
  assert (Hload : exists ep,
            loadEndpoints "conf" [File "conf/neg.json" (Decoded negDef)] = Loaded [ep]
            /\ timeout ep = (-1000000000)%Z).
  { eexists. split; vm_compute; reflexivity. }
  destruct Hload as (ep & Hload & Ht).
  specialize (Hpos _ _ _ ep Hload (or_introl eq_refl)). lia.
Qed.

Lemma failed_authentication_is_401_witness :
  exists w,
    @dispatch sampleFormatting (prints "" None false) [runEp] 1 wrongReq = Served w []
    /\ Status w = Some 401%Z.
Proof.
  destruct (@failed_authentication_is_401 sampleFormatting (prints "" None false)
              "conf" [File "conf/run.json" (Decoded runDef)] [runEp] 1 wrongReq
              runEp {[ "id" := "42" ]})
    as (w & Hw & Hs & _).
  - vm_compute; reflexivity.
  - vm_compute; reflexivity.
  - right. vm_compute. discriminate.
  - exists w. split; [exact Hw|exact Hs].
Defined.

Lemma first_match_in_sorted_order_witness :
  loadEndpoints "conf" [File "conf/a.json" (Decoded runDef);
                        File "conf/b.json" (Decoded restDef)]
  = Loaded [restEp; runEp]
  /\ @dispatch sampleFormatting (prints "" None false) [restEp; runEp] 2 runReq
     = @dispatch sampleFormatting (prints "" None false) [restEp] 2 runReq.
Proof.
  assert (Hload : loadEndpoints "conf" [File "conf/a.json" (Decoded runDef);
                                        File "conf/b.json" (Decoded restDef)]
                  = Loaded [restEp; runEp]) by (vm_compute; reflexivity).
  split; [exact Hload|].
  pose proof (@first_match_in_sorted_order sampleFormatting (prints "" None false)
                "conf" _ [restEp; runEp] 2 runReq Hload) as [_ Hfirst].
  replace (route [restEp; runEp] runReq)
    with (Some (restEp, ({[ "rest" := "42" ]} : gmap string string))) in Hfirst
    by (vm_compute; reflexivity).
  exact (proj2 Hfirst).
Defined.



Lemma header_name_case_is_immaterial_witness :
  @dispatch sampleFormatting (prints "id=42" None false) [withHeader "x-token" runEp] 2 runReq
  = @dispatch sampleFormatting (prints "id=42" None false) [runEp] 2 runReq.
Proof.
  refine (proj2 (@header_name_case_is_immaterial sampleFormatting
                   (prints "id=42" None false) "conf"
                   [File "conf/run.json" (Decoded runDef)] [runEp] 2 runReq
                   runEp {[ "id" := "42" ]} _ _ _) "x-token" _).
  - vm_compute; reflexivity.
  - vm_compute; reflexivity.
  - intros k vs Hk.
    change (Header runReq) with ({[ "X-Token" := ["abc"] ]} : gmap string (list string)) in Hk.
    apply lookup_singleton_Some in Hk as [<- _]. split; vm_compute; reflexivity.
  - vm_compute; reflexivity.
Defined.

(** * Further properties *)

(** ** [parseAuth] *)

Lemma SplitN_two (a : string) (sep : ascii) :
  SplitN a sep 2
  = match Index a (String sep "") with
    | None => [a]
    | Some i => [take i a; drop (S i) a]
    end.
Proof. reflexivity. Qed.

Lemma drop_S_app (pre post : string) (c : ascii) :
  drop (S (String.length pre)) (pre ++ String c post) = post.
Proof.
  replace (S (String.length pre)) with (String.length pre + 1) by lia.
  by rewrite drop_app_plus.
Qed.

(** [parseAuth] cuts its argument at the first colon: without a colon it is
    the error of the format; with one, the header is what stands before the
    first colon and the token all that follows it, colons included, both
    without the white space around them, and the error of emptiness where
    one of the two is empty then. *)
Theorem parseAuth_first_colon (a p0 p1 : string) :
  (Contains a ":" = false -> parseAuth a = Err BadAuthFormat)
  /\ (Contains p0 ":" = false ->
      parseAuth (p0 ++ String ":" p1)
      = if String.eqb (TrimSpace p0) "" || String.eqb (TrimSpace p1) ""
        then Err EmptyHeaderToken
        else Ok (TrimSpace p0, TrimSpace p1)).
Proof.
  split.
  - intros Ha%Index_None. unfold parseAuth. by rewrite SplitN_two, Ha.
  - intros Hp0. unfold parseAuth.
    by rewrite SplitN_two, (Index_app _ _ _ Hp0), take_app, drop_S_app.
Qed.

(** ** Matching *)

(** The run [span] cuts off has no ["/"], and the rest is what follows. *)
Lemma span_spec (r x r' : string) :
  regexp.span r = (x, r') -> r = x ++ r' /\ Contains x "/" = false.
Proof.
  revert x r'. induction r as [|c r IH]; intros x r'; simpl.
  - by intros [= <- <-].
  - destruct (Ascii.eqb c "/") eqn:Hc; [by intros [= <- <-]|].
    destruct (regexp.span r) as [x0 r0]. intros [= <- <-].
    destruct (IH x0 r0 eq_refl) as [-> Hx0].
    split; [by rewrite append_cons|]. simpl. by rewrite Hc.
Qed.

(** A run without ["/"] before the end, or before a ["/"], is the run
    [span] cuts off. *)
Lemma span_value (v rest : string) :
  Contains v "/" = false ->
  rest = "" \/ (exists t, rest = String "/" t) ->
  regexp.span (v ++ rest) = (v, rest).
Proof.
  intros Hv Hrest. induction v as [|c v IH].
  - rewrite append_nil_l. by destruct Hrest as [->|[t ->]].
  - rewrite append_cons. simpl in *.
    apply orb_false_elim in Hv as [-> Hv]. by rewrite (IH Hv).
Qed.

(** What dot-star takes has no line feed, and the rest of the expression
    matches what is left. *)
Lemma greedy_spec (k : string -> option (list string)) (p : string) l :
  regexp.greedy k p = Some l ->
  exists y r caps,
    l = y :: caps /\ p = y ++ r /\ Contains y regexp.LF = false /\ k r = Some caps.
Proof.
  revert l. induction p as [|c p IH]; intros l; simpl.
  - destruct (k "") as [caps|] eqn:Hk; [|done]. intros [= <-].
    by exists "", "", caps.
  - destruct (Ascii.eqb c regexp.LF) eqn:Hc.
    + destruct (k (String c p)) as [caps|] eqn:Hk; [|done]. intros [= <-].
      by exists "", (String c p), caps.
    + destruct (regexp.greedy k p) as [[|y caps]|] eqn:Hg.
      * destruct (k (String c p)) as [caps|] eqn:Hk; [|done]. intros [= <-].
        by exists "", (String c p), caps.
      * intros [= <-].
        destruct (IH _ eq_refl) as (y' & r & caps' & [= -> ->] & -> & Hy & Hk).
        exists (String c y'), r, caps'. rewrite append_cons. simpl.
        by rewrite Hc, Hy.
      * destruct (k (String c p)) as [caps|] eqn:Hk; [|done]. intros [= <-].
        by exists "", (String c p), caps.
Qed.

(** One submatch for every group. *)
Lemma submatches_groups ps p caps :
  regexp.submatches ps p = Some caps ->
  length caps = length (flat_map regexp.groupName ps).
Proof.
  revert p caps. induction ps as [|piece ps IH]; intros p caps; simpl.
  - destruct (String.eqb p ""); [|done]. by intros [= <-].
  - destruct piece as [s|n|n]; simpl.
    + destruct (regexp.after _ p) as [r|]; [|done]. apply IH.
    + destruct (regexp.after _ p) as [r|]; [|done].
      destruct (regexp.span r) as [x r'].
      destruct (String.eqb x ""); [done|].
      destruct (regexp.submatches ps r') as [caps'|] eqn:Hcaps; [|done].
      intros [= <-]. simpl. f_equal. by apply (IH r').
    + destruct (regexp.after _ p) as [r|]; [|done].
      intros (y & r' & caps' & -> & _ & _ & Hk)%greedy_spec.
      simpl. f_equal. by apply (IH r').
Qed.

Lemma Index_slash (s : string) :
  Index s regexp.replacement = None -> Index ("/" ++ s) regexp.replacement = None.
Proof.
  intros Hs. change ("/" ++ s) with (String "/" s). rewrite Index_step, Hs.
  by destruct s.
Qed.

(** A path the pieces match is the path the pieces spell with the
    submatches, and every submatch is one its group takes, where no literal
    piece has U+FFFD in it. *)
Lemma submatches_sound ps p caps :
  Forall plainPiece ps ->
  regexp.submatches ps p = Some caps -> fill ps caps = Some p /\ fits ps caps.
Proof.
  intros Hps. revert p caps.
  induction Hps as [|piece ps Hpiece Hps IH]; intros p caps; simpl.
  - destruct (String.eqb_spec p ""); [|done]. by intros [= <-]; subst.
  - destruct piece as [s|n|n].
    + destruct (regexp.after _ p) as [r|] eqn:Hafter; [|done].
      apply after_Some in Hafter as ->; [|by apply Index_slash].
      intros [-> ?]%IH. by simpl.
    + destruct (regexp.after _ p) as [r|] eqn:Hafter; [|done].
      apply after_Some in Hafter as ->; [|done].
      destruct (regexp.span r) as [x r'] eqn:Hspan.
      destruct (span_spec _ _ _ Hspan) as [-> Hx].
      destruct (String.eqb_spec x ""); [done|].
      destruct (regexp.submatches ps r') as [caps'|] eqn:Hcaps; [|done].
      intros [= <-]. destruct (IH _ _ Hcaps) as [-> ?]. simpl.
      by rewrite append_assoc.
    + destruct (regexp.after _ p) as [r|] eqn:Hafter; [|done].
      apply after_Some in Hafter as ->; [|done].
      intros (y & r' & caps' & -> & -> & Hy & Hk)%greedy_spec.
      destruct (IH _ _ Hk) as [-> ?]. simpl. by rewrite append_assoc.
Qed.

(** The path the pieces spell starts with ["/"], unless it is empty. *)
Lemma fill_head ps vals p :
  fill ps vals = Some p -> p = "" \/ exists t, p = String "/" t.
Proof.
  destruct ps as [|[s|n|n] ps]; simpl.
  - destruct vals; [|done]. intros [= <-]. by left.
  - destruct (fill ps vals) as [q|]; [|done]. intros [= <-]. right. by eexists.
  - destruct vals as [|v vals]; [done|].
    destruct (fill ps vals) as [q|]; [|done]. intros [= <-]. right. by eexists.
  - destruct vals as [|v vals]; [done|].
    destruct (fill ps vals) as [q|]; [|done]. intros [= <-]. right. by eexists.
Qed.

(** The path the pieces spell with values their groups take is matched,
    with these values as submatches, where the wildcard is last. *)
Lemma submatches_complete ps wild vals p :
  wildcardLast ps wild -> fits ps vals -> fill ps vals = Some p ->
  regexp.submatches ps p = Some vals.
Proof.
  assert (Hplain : forall ps vals p,
            Forall notRest ps -> fits ps vals -> fill ps vals = Some p ->
            regexp.submatches ps p = Some vals).
  { clear. intros ps vals p Hps. revert vals p.
    induction Hps as [|piece ps Hpiece Hps IH]; intros vals p Hfits; simpl.
    - destruct vals; [|done]. by intros [= <-].
    - destruct piece as [s|n|n]; [| |done]; simpl in *.
      + destruct (fill ps vals) as [q|] eqn:Hq; [|done]. intros [= <-].
        rewrite after_app. by apply IH.
      + destruct vals as [|v vals]; [done|]. destruct Hfits as [[Hne Hv] Hfits].
        destruct (fill ps vals) as [q|] eqn:Hq; [|done]. intros [= <-].
        rewrite append_assoc, after_app, (span_value _ _ Hv (fill_head _ _ _ Hq)).
        destruct (String.eqb_spec v ""); [done|].
        by rewrite (IH _ _ Hfits Hq). }
  destruct wild; simpl; [|by apply Hplain].
  intros (ps0 & name & -> & Hps0). clear Hplain. revert vals p.
  induction Hps0 as [|piece ps0 Hpiece Hps0 IH]; intros vals p Hfits; simpl in *.
  - destruct vals as [|v [|? ?]]; try done. destruct Hfits as [Hv _].
    intros [= <-]. rewrite append_nil_r, after_app.
    by apply (greedy_all _ _ []).
  - destruct piece as [s|n|n]; [| |done].
    + destruct (fill _ vals) as [q|] eqn:Hq; [|done]. intros [= <-].
      rewrite after_app. by apply IH.
    + destruct vals as [|v vals]; [done|]. destruct Hfits as [[Hne Hv] Hfits].
      destruct (fill _ vals) as [q|] eqn:Hq; [|done]. intros [= <-].
      rewrite append_assoc, after_app, (span_value _ _ Hv (fill_head _ _ _ Hq)).
      destruct (String.eqb_spec v ""); [done|].
      by rewrite (IH _ _ Hfits Hq).
Qed.

(** ** [compileURI] *)

(** The pieces [compileURI] writes have their wildcard, if any, last. *)
Lemma compileSegs_wildcardLast i n segs b wild b' wild' :
  compileSegs i n segs b wild = Ok (b', wild') ->
  i + length segs = n -> Forall notRest b -> wild = false ->
  wildcardLast b' wild'.
Proof.
  revert i b. induction segs as [|s segs IH]; intros i b.
  - simpl. intros [= <- <-] _ Hb ->. done.
  - rewrite compileSegs_cons. simpl length. intros Hok Hn Hb ->.
    destruct (String.eqb s "").
    { apply (IH (S i) b); [done|lia|done..]. }
    destruct (HasPrefix s ":").
    { apply (IH (S i) (b ++ [regexp.Segment (drop 1 s)])%list); [done|lia| |done].
      apply Forall_app. split; [done|]. by repeat constructor. }
    destruct (HasPrefix s "*").
    2:{ apply (IH (S i) (b ++ [regexp.Literal s])%list); [done|lia| |done].
        apply Forall_app. split; [done|]. by repeat constructor. }
    destruct (Nat.eqb_spec i (n - 1)) as [Hi|]; [|done]. simpl in Hok.
    destruct segs as [|? ?]; [|simpl in Hn; lia].
    simpl in Hok. injection Hok as <- <-. by exists b, (drop 1 s).
Qed.

Lemma group_valid name :
  regexp.group name = Some true ->
  regexp.isValidCaptureName name = true /\ Contains name ">" = false.
Proof.
  unfold regexp.group. destruct (Index name ">") as [i|] eqn:Hi.
  - by destruct (regexp.isValidCaptureName _).
  - intros [= ->]. split; [done|]. by apply Index_None.
Qed.

Lemma check_valid ps : regexp.check ps = Some true -> Forall validPiece ps.
Proof.
  induction ps as [|piece ps IH]; [constructor|]. simpl.
  destruct piece as [s|name|name].
  - destruct (utf8.ValidString s) eqn:Hs; [|done].
    intros Hps. constructor; [done|by apply IH].
  - destruct (regexp.group name) as [[]|] eqn:Hg; [|done..].
    intros Hps. constructor; [by apply group_valid|by apply IH].
  - destruct (regexp.group name) as [[]|] eqn:Hg; [|done..].
    intros Hps. constructor; [by apply group_valid|by apply IH].
Qed.

(** What [compileURI] returns: an expression of valid pieces whose
    wildcard, if any, is the last piece, and the flag that says so. *)
Lemma compileURI_loaded pattern re wild :
  compileURI pattern = Loaded (re, wild) ->
  wildcardLast re wild /\ Forall validPiece re.
Proof.
  unfold compileURI.
  destruct (compileSegs _ _ _ _ _) as [[b w]|e] eqn:Hsegs; [|done].
  unfold regexp.Compile. destruct (regexp.check b) as [[]|] eqn:Hcheck; [|done..].
  intros [= <- <-]. split; [|by apply check_valid].
  apply (compileSegs_wildcardLast _ _ _ _ _ _ _ Hsegs); [lia|constructor|done].
Qed.

(** The loop of [compileURI] ends without error where no segment but the
    last starts with ["*"]. *)
Lemma compileSegs_Ok i n segs b wild :
  (forall j s, segs !! j = Some s -> HasPrefix s "*" = true -> i + j = n - 1) ->
  exists b' wild', compileSegs i n segs b wild = Ok (b', wild').
Proof.
  revert i b wild. induction segs as [|s segs IH]; intros i b wild Hlast.
  - by exists b, wild.
  - rewrite compileSegs_cons.
    assert (Hnext : forall j s', segs !! j = Some s' -> HasPrefix s' "*" = true ->
                                 S i + j = n - 1).
    { intros j s' Hj Hs'. specialize (Hlast (S j) s' Hj Hs'). lia. }
    destruct (String.eqb s ""); [by apply IH|].
    destruct (HasPrefix s ":"); [by apply IH|].
    destruct (HasPrefix s "*") eqn:Hs; [|by apply IH].
    specialize (Hlast 0 s eq_refl Hs).
    replace (i =? n - 1)%nat with true by (symmetry; apply Nat.eqb_eq; lia).
    by apply IH.
Qed.

(** The flag [compileURI] returns says whether a segment starts with
    ["*"]. *)
Lemma compileSegs_wild i n segs b wild b' wild' :
  compileSegs i n segs b wild = Ok (b', wild') ->
  wild' = wild || existsb (fun s => HasPrefix s "*") segs.
Proof.
  revert i b wild. induction segs as [|s segs IH]; intros i b wild.
  - simpl. intros [= _ <-]. by rewrite orb_false_r.
  - rewrite compileSegs_cons. simpl existsb.
    destruct (HasPrefix s "*") eqn:Hs.
    + destruct (HasPrefix_star _ Hs) as [s' ->].
      change (String.eqb (String "*" s') "") with false.
      change (HasPrefix (String "*" s') ":") with false. cbv iota.
      destruct (negb _); [done|]. intros Hok%IH.
      by rewrite Hok, orb_true_r.
    + simpl. destruct (String.eqb s ""); [apply IH|].
      destruct (HasPrefix s ":"); apply IH.
Qed.

Lemma name_without_gt (name : string) :
  regexp.isValidCaptureName name = true -> Contains name ">" = false.
Proof.
  unfold regexp.isValidCaptureName. intros [_ Hall]%andb_prop.
  induction name as [|c name IH]; [done|]. simpl in *.
  apply andb_prop in Hall as [Hc Hall]. rewrite (IH Hall), orb_false_r.
  destruct (Ascii.eqb_spec c ">") as [->|]; [|done]. by vm_compute in Hc.
Qed.

(** The pieces written for segments [regexp.Compile] accepts are valid. *)
Lemma compileSegs_valid i n segs b wild b' wild' :
  compileSegs i n segs b wild = Ok (b', wild') ->
  Forall plainSegment segs -> Forall validPiece b -> Forall validPiece b'.
Proof.
  revert i b wild. induction segs as [|s segs IH]; intros i b wild.
  - simpl. by intros [= <- _].
  - rewrite compileSegs_cons. intros Hok [Hs Hsegs]%Forall_cons Hb.
    unfold plainSegment in Hs.
    destruct (String.eqb s ""); [by apply (IH _ _ _ Hok)|].
    destruct (HasPrefix s ":").
    { apply (IH _ _ _ Hok Hsegs), Forall_app. split; [done|].
      repeat constructor; [done|by apply name_without_gt]. }
    destruct (HasPrefix s "*").
    { destruct (negb _); [done|].
      apply (IH _ _ _ Hok Hsegs), Forall_app. split; [done|].
      repeat constructor; [done|by apply name_without_gt]. }
    apply (IH _ _ _ Hok Hsegs), Forall_app. split; [done|]. by repeat constructor.
Qed.

Lemma valid_check ps : Forall validPiece ps -> regexp.check ps = Some true.
Proof.
  assert (Hgroup : forall name,
            regexp.isValidCaptureName name = true /\ Contains name ">" = false ->
            regexp.group name = Some true).
  { intros name [Hname Hgt%Index_None]. unfold regexp.group. by rewrite Hgt, Hname. }
  induction 1 as [|[s|name|name] ps Hp Hps IH]; simpl in *; [done|..].
  - by rewrite Hp.
  - by rewrite (Hgroup _ Hp).
  - by rewrite (Hgroup _ Hp).
Qed.

(** A template of segments [regexp.Compile] accepts, its wildcard last if
    it has one, is compiled. *)
Lemma compileURI_plain pattern :
  Forall plainSegment (segments pattern) -> wildcardAtEnd pattern ->
  exists re wild, compileURI pattern = Loaded (re, wild).
Proof.
  intros Hplain Hlast. unfold compileURI. fold (segments pattern).
  destruct (compileSegs_Ok 0 (length (segments pattern)) (segments pattern) [] false)
    as (b & wild & Hsegs).
  { intros j s Hj Hs. simpl. by apply (Hlast j s). }
  rewrite Hsegs. unfold regexp.Compile.
  rewrite (valid_check b); [by exists b, wild|].
  apply (compileSegs_valid _ _ _ _ _ _ _ Hsegs Hplain). constructor.
Qed.

(** A template is compiled where each of its segments is a [:name] or
    [*name] with a capture name or a literal in UTF-8, and none but the last
    starts with ["*"].  The path made of it with a value in the place of
    each capture, a segment without ["/"] that is not empty for a [:name]
    and any text without a line feed for the [*name], is then matched by
    the expression, and the submatches are these values. *)
Theorem compiled_template_matches_its_paths pattern :
  Forall plainSegment (segments pattern) -> wildcardAtEnd pattern ->
  exists re wild,
    compileURI pattern = Loaded (re, wild)
    /\ forall vals p,
         fits re vals -> fill re vals = Some p ->
         regexp.FindStringSubmatch re p = Some (p :: vals).
Proof.
  intros Hplain Hlast.
  destruct (compileURI_plain _ Hplain Hlast) as (re & wild & Hre).
  exists re, wild. split; [done|]. intros vals p Hfits Hfill.
  apply compileURI_loaded in Hre as [Hwild _].
  unfold regexp.FindStringSubmatch.
  by rewrite (submatches_complete _ _ _ _ Hwild Hfits Hfill).
Qed.

Lemma compiled_template_matches_its_paths_witness :
  exists re wild,
    compileURI "/run/:id/*rest" = Loaded (re, wild)
    /\ regexp.FindStringSubmatch re "/run/42/a/b" = Some ["/run/42/a/b"; "42"; "a/b"].
Proof.
  destruct (compiled_template_matches_its_paths "/run/:id/*rest")
    as (re & wild & Hre & Hmatch).
  - change (segments "/run/:id/*rest") with ["run"; ":id"; "*rest"].
    repeat constructor; vm_compute; reflexivity.
  - intros j s. change (segments "/run/:id/*rest") with ["run"; ":id"; "*rest"].
    destruct j as [|[|[|j]]]; simpl; intros [= <-]; try done; by vm_compute.
  - exists re, wild. split; [exact Hre|].
    assert (Hc : compileURI "/run/:id/*rest"
                 = Loaded ([regexp.Literal "run"; regexp.Segment "id";
                            regexp.Rest "rest"], true))
      by (vm_compute; reflexivity).
    rewrite Hc in Hre. injection Hre as <- <-.
    apply (Hmatch ["42"; "a/b"]).
    + vm_compute. repeat split; discriminate.
    + vm_compute; reflexivity.
Defined.

(** A path an endpoint matches is its template with the submatches in
    the place of the captures: what a [:name] took is a segment of the
    path, not empty and without ["/"], and what a [*name] took has no line
    feed.  This is so for an expression of valid pieces whose literals do
    not have U+FFFD in them, the rune that bytes of a path that are no
    UTF-8 are read as. *)
Theorem matched_path_is_filled_template ep p vars :
  Forall validPiece (pathRe ep) -> Forall plainPiece (pathRe ep) ->
  pathVars ep p = Some vars ->
  exists caps,
    regexp.FindStringSubmatch (pathRe ep) p = Some (p :: caps)
    /\ fill (pathRe ep) caps = Some p /\ fits (pathRe ep) caps.
Proof.
  intros _ Hplain. unfold pathVars, regexp.FindStringSubmatch.
  destruct (regexp.submatches (pathRe ep) p) as [caps|] eqn:Hcaps; [|done].
  intros _. exists caps. split; [done|]. by apply submatches_sound.
Qed.

Lemma matched_path_is_filled_template_witness :
  exists caps,
    regexp.FindStringSubmatch (pathRe runEp) "/run/42" = Some ("/run/42" :: caps)
    /\ fill (pathRe runEp) caps = Some "/run/42" /\ fits (pathRe runEp) caps.
Proof.
  apply (matched_path_is_filled_template runEp "/run/42" {[ "id" := "42" ]}).
  - repeat constructor; vm_compute; reflexivity.
  - repeat constructor; vm_compute; reflexivity.
  - vm_compute; reflexivity.
Defined.

(** ** [pathVars] *)

(** With a name for every group, the loop of [pathVars] stores the
    submatches under the names, in the order of the groups. *)
Lemma collect_foldl names pre caps out :
  pre <> [] -> Forall (fun n => n <> "") names -> length caps = length names ->
  collect (length pre) names (pre ++ caps) out = foldl store out (zip names caps).
Proof.
  revert pre caps out. induction names as [|n names IH]; intros pre caps out Hpre Hn Hlen.
  - by destruct caps.
  - destruct caps as [|c caps]; [done|]. simpl in Hlen.
    apply Forall_cons in Hn as [Hn Hnames]. simpl.
    destruct (Nat.eqb_spec (length pre) 0) as [H0|_].
    { by destruct pre. }
    destruct (String.eqb_spec n ""); [done|]. simpl.
    rewrite lookup_app_r, Nat.sub_diag by lia. simpl.
    replace (S (length pre)) with (length (pre ++ [c])) by (rewrite length_app; simpl; lia).
    rewrite (cons_middle c pre caps), app_assoc.
    apply IH; [by destruct pre|done|lia].
Qed.

(** After a run of stores a name holds the value stored for it last. *)
Lemma foldl_store_last (l : list (string * string)) out i name v :
  l !! i = Some (name, v) ->
  (forall j nv, i < j -> l !! j = Some nv -> nv.1 <> name) ->
  foldl store out l !! name = Some v.
Proof.
  revert i. induction l as [|x l IH] using rev_ind; intros i Hi Hlast; [done|].
  rewrite foldl_app. simpl. unfold store at 1.
  destruct (decide (i = length l)) as [->|Hne].
  - rewrite lookup_app_r, Nat.sub_diag in Hi by lia. injection Hi as ->.
    by rewrite lookup_insert_eq.
  - assert (Hlt : i < length l).
    { apply lookup_lt_Some in Hi. rewrite length_app in Hi. simpl in Hi. lia. }
    rewrite lookup_insert_ne.
    + apply (IH i); [by rewrite lookup_app_l in Hi|].
      intros j nv Hj Hnv. apply (Hlast j); [done|].
      rewrite lookup_app_l; [done|]. by apply lookup_lt_Some in Hnv.
    + apply (Hlast (length l)); [done|].
      by rewrite lookup_app_r, Nat.sub_diag by lia.
Qed.

(** And a name holds nothing but what was there or was stored for it. *)
Lemma foldl_store_Some (l : list (string * string)) out name v :
  foldl store out l !! name = Some v ->
  out !! name = Some v \/ exists i, l !! i = Some (name, v).
Proof.
  induction l as [|x l IH] using rev_ind; [by left|].
  rewrite foldl_app. simpl. unfold store at 1.
  destruct (decide (x.1 = name)) as [Hx|Hx].
  - rewrite Hx, lookup_insert_eq. intros [= <-]. right. exists (length l).
    rewrite lookup_app_r, Nat.sub_diag by lia. simpl. by destruct x; simpl in *; subst.
  - rewrite lookup_insert_ne by done. intros [?|[i Hi]]%IH; [by left|].
    right. exists i. rewrite lookup_app_l; [done|]. by apply lookup_lt_Some in Hi.
Qed.

Lemma validPiece_names ps :
  Forall validPiece ps -> Forall (fun n => n <> "") (flat_map regexp.groupName ps).
Proof.
  induction 1 as [|[s|n|n] ps Hp Hps IH]; simpl; [constructor|done|..].
  - constructor; [|done]. intros ->. by destruct Hp.
  - constructor; [|done]. intros ->. by destruct Hp.
Qed.

(** The variables of a matched path are the submatches under the names of
    their groups. *)
Lemma pathVars_foldl ep p vars :
  Forall validPiece (pathRe ep) ->
  pathVars ep p = Some vars ->
  exists caps,
    regexp.submatches (pathRe ep) p = Some caps
    /\ length caps = length (flat_map regexp.groupName (pathRe ep))
    /\ vars = foldl store ∅ (zip (flat_map regexp.groupName (pathRe ep)) caps).
Proof.
  intros Hvalid. unfold pathVars, regexp.FindStringSubmatch.
  destruct (regexp.submatches (pathRe ep) p) as [caps|] eqn:Hcaps; [|done].
  simpl. intros [= <-]. exists caps.
  pose proof (submatches_groups _ _ _ Hcaps) as Hlen.
  repeat split; [done|].
  unfold regexp.SubexpNames. simpl.
  apply (collect_foldl _ [p] caps ∅); [done|by apply validPiece_names|done].
Qed.

(** The variables [pathVars] returns for the expression of a compiled
    template are the captures: a variable holds what a group of its name
    took, and where groups share a name, what the last of them took. *)
Theorem path_variable_is_last_capture ep p vars :
  Forall validPiece (pathRe ep) ->
  pathVars ep p = Some vars ->
  exists caps,
    regexp.FindStringSubmatch (pathRe ep) p = Some (p :: caps)
    /\ (forall name v,
          vars !! name = Some v ->
          exists i, flat_map regexp.groupName (pathRe ep) !! i = Some name
                    /\ caps !! i = Some v)
    /\ (forall i name v,
          flat_map regexp.groupName (pathRe ep) !! i = Some name ->
          caps !! i = Some v ->
          (forall j, i < j -> flat_map regexp.groupName (pathRe ep) !! j <> Some name) ->
          vars !! name = Some v).
Proof.
  intros Hvalid Hvars.
  destruct (pathVars_foldl _ _ _ Hvalid Hvars) as (caps & Hcaps & Hlen & ->).
  exists caps. split; [|split].
  - unfold regexp.FindStringSubmatch. by rewrite Hcaps.
  - intros name v [Hempty|[i Hi]]%foldl_store_Some; [done|].
    exists i. by apply lookup_zip_with_Some in Hi as (? & ? & [= <- <-] & ? & ?).
  - intros i name v Hname Hv Hlast.
    apply (foldl_store_last _ _ i).
    + apply lookup_zip_with_Some. by exists name, v.
    + intros j [n' v'] Hj (? & ? & [= <- <-] & Hn' & _)%lookup_zip_with_Some.
      simpl. intros ->. by apply (Hlast j).
Qed.

Lemma path_variable_is_last_capture_witness :
  pathVars twiceEp "/a/1/2" = Some {[ "x" := "2" ]}
  /\ exists caps,
       regexp.FindStringSubmatch (pathRe twiceEp) "/a/1/2" = Some ("/a/1/2" :: caps).
Proof.
  assert (Hv : pathVars twiceEp "/a/1/2" = Some {[ "x" := "2" ]})
    by (vm_compute; reflexivity).
  split; [exact Hv|].
  destruct (path_variable_is_last_capture twiceEp "/a/1/2" {[ "x" := "2" ]})
    as (caps & Hcaps & _).
  - repeat constructor.
  - exact Hv.
  - by exists caps.
Defined.

(** ** [loadEndpoints] *)

Lemma walk_app before rest acc :
  walk (before ++ rest) acc
  = match walk before acc with
    | Loaded eps => walk rest eps
    | r => r
    end.
Proof.
  revert acc. induction before as [|x before IH]; intros acc; [done|].
  simpl. destruct x as [|p|p f]; [done|apply IH|].
  destruct (negb _); [apply IH|].
  destruct (mustEndpointFromFile p f); [apply IH|done..].
Qed.

(** A walk that ends well has loaded every file of [configs], in order,
    behind the endpoints it started with. *)
Lemma walk_configs entries acc eps :
  walk entries acc = Loaded eps ->
  exists loaded,
    eps = (acc ++ loaded)%list
    /\ Forall2 (fun pf ep => mustEndpointFromFile pf.1 pf.2 = Loaded ep)
         (configs entries) loaded.
Proof.
  revert acc. induction entries as [|x entries IH]; intros acc; simpl.
  - intros [= <-]. exists []. by rewrite app_nil_r.
  - destruct x as [|p|p f]; [done|apply IH|].
    destruct (String.eqb (ToLower (Ext p)) ".json"); simpl; [|apply IH].
    destruct (mustEndpointFromFile p f) as [ep|e|] eqn:Hm; [|done..].
    intros (loaded & -> & Hall)%IH. exists (ep :: loaded).
    split; [by rewrite <- app_assoc|]. by constructor.
Qed.

Lemma mustEndpointFromFile_required path f ep :
  mustEndpointFromFile path f = Loaded ep ->
  URI ep <> "" /\ Method ep <> "" /\ Auth ep <> "" /\ TTL ep <> "".
Proof.
  unfold mustEndpointFromFile. destruct f as [| |def]; [done..|].
  destruct (String.eqb_spec (URI def) ""); [done|].
  destruct (String.eqb_spec (Method def) ""); [done|].
  destruct (String.eqb_spec (Auth def) ""); [done|].
  destruct (_ =? _)%nat; [done|]. simpl.
  destruct (parseAuth (Auth def)) as [[h t]|e]; [|done].
  destruct (time.ParseDuration _) as [d|]; [|done].
  destruct (compileURI (URI def)) as [[re wild]|e|]; [|done..].
  intros [= <-]. simpl. repeat split; try done.
  by destruct (String.eqb_spec (TTL def) "").
Qed.

(** The registry is made of the endpoints of the [.json] files of the walk,
    one a file, none lost and none added, and put in the order of their
    templates; files of other extensions and directories leave no trace. *)
Theorem registry_is_the_sorted_configs dir entries eps :
  loadEndpoints dir entries = Loaded eps ->
  exists loaded,
    Forall2 (fun pf ep => mustEndpointFromFile pf.1 pf.2 = Loaded ep)
      (configs entries) loaded
    /\ Permutation eps loaded
    /\ sortedByURI eps.
Proof.
  unfold loadEndpoints.
  destruct (walk entries []) as [eps0|e|] eqn:Hw; [|done..].
  destruct (length eps0 =? 0)%nat; [done|]. intros [= <-].
  destruct (walk_configs _ _ _ Hw) as (loaded & -> & Hall).
  exists loaded. split; [done|]. split.
  - apply sortSlice_perm.
  - apply (sortSlice_sorted lessURI lessURI_trans lessURI_asym).
Qed.

Lemma registry_is_the_sorted_configs_witness :
  exists loaded,
    Forall2 (fun pf ep => mustEndpointFromFile pf.1 pf.2 = Loaded ep)
      (configs [Directory "conf"; File "conf/a.json" (Decoded runDef);
                File "conf/notes.txt" Unreadable;
                File "conf/b.JSON" (Decoded restDef)]) loaded
    /\ Permutation [restEp; runEp] loaded
    /\ sortedByURI [restEp; runEp].
Proof.
  apply (registry_is_the_sorted_configs "conf").
  vm_compute; reflexivity.
Defined.

(** Every endpoint of a loaded registry has a template, a method, a
    script with at least the command, a header name, a token and a ttl,
    none of them empty, and an error status other than zero; no segment of
    its template but the last starts with ["*"], and its wildcard flag says
    whether one does. *)
Theorem loaded_endpoint_is_complete dir entries eps ep :
  loadEndpoints dir entries = Loaded eps -> In ep eps ->
  URI ep <> "" /\ Method ep <> "" /\ Script ep <> []
  /\ header ep <> "" /\ token ep <> "" /\ Error ep <> 0%Z /\ TTL ep <> ""
  /\ wildcardAtEnd (URI ep)
  /\ wildcard ep = existsb (fun s => HasPrefix s "*") (segments (URI ep)).
Proof.
  intros Hload Hin.
  destruct (loadEndpoints_loaded _ _ _ Hload) as (_ & _ & Hfiles).
  destruct (Hfiles ep Hin) as (p & f & _ & Hm).
  destruct (mustEndpointFromFile_required _ _ _ Hm) as (Huri & Hmethod & _ & Httl).
  destruct (mustEndpointFromFile_loaded _ _ _ Hm)
    as (def & _ & Hdef & _ & Hscript & Hnil & Hauth & _ & _ & Herr & Hre).
  apply parseAuth_nonempty in Hauth as [Hh Ht]. rewrite <- Hdef in Hre.
  repeat split; try done.
  - by rewrite Hscript.
  - rewrite Herr. destruct (Z.eqb_spec (Error def) 0); [done|done].
  - intros j s Hj Hs.
    destruct (decide (j = length (segments (URI ep)) - 1)) as [|Hne]; [done|].
    by rewrite (compileURI_misplaced _ j s Hj Hs Hne) in Hre.
  - unfold compileURI in Hre. fold (segments (URI ep)) in Hre.
    destruct (compileSegs _ _ _ _ _) as [[b w]|e] eqn:Hsegs; [|done].
    apply compileSegs_wild in Hsegs as ->.
    destruct (regexp.Compile b); [|done..]. by injection Hre as _ <-.
Qed.

Lemma loaded_endpoint_is_complete_witness :
  Script restEp <> [] /\ token restEp <> ""
  /\ wildcardAtEnd (URI restEp)
  /\ wildcard restEp = existsb (fun s => HasPrefix s "*") (segments (URI restEp)).
Proof.
  destruct (loaded_endpoint_is_complete "conf"
              [File "conf/rest.json" (Decoded restDef)] [restEp] restEp)
    as (_ & _ & Hs & _ & Ht & _ & _ & Hw).
  - vm_compute; reflexivity.
  - by left.
  - exact (conj Hs (conj Ht Hw)).
Defined.

(** Loading stops at the first [.json] file that is refused, with the error
    of that file, whatever the walk has behind it. *)
Theorem loading_stops_at_first_refusal dir before p f after eps0 e :
  walk before [] = Loaded eps0 ->
  String.eqb (ToLower (Ext p)) ".json" = true ->
  mustEndpointFromFile p f = Refused e ->
  loadEndpoints dir (before ++ File p f :: after) = Refused e.
Proof.
  intros Hbefore Hext Hm. unfold loadEndpoints.
  rewrite walk_app, Hbefore. simpl. by rewrite Hext, Hm.
Qed.

Lemma loading_stops_at_first_refusal_witness :
  loadEndpoints "conf"
    ([File "conf/a.json" (Decoded runDef)]
     ++ File "conf/b.json" (Decoded bareDef) :: [File "conf/c.json" Malformed])
  = Refused (MissingFields "conf/b.json").
Proof.
  apply (loading_stops_at_first_refusal "conf" _ _ _ _ [runEp]);
    vm_compute; reflexivity.
Defined.

(** A walk without a [.json] file, and without an error of the walk itself,
    is refused for want of endpoints: the registry is never empty. *)
Theorem no_configs_no_registry dir entries :
  configs entries = [] -> ~ In Failed entries ->
  loadEndpoints dir entries = Refused (NoEndpoints dir).
Proof.
  intros Hconf Hwalk. unfold loadEndpoints.
  assert (Hw : forall acc, walk entries acc = Loaded acc).
  { induction entries as [|x entries IH]; intros acc; [done|]. simpl in *.
    destruct x as [|p|p f].
    - destruct Hwalk. by left.
    - apply IH; [done|]. intros ?. apply Hwalk. by right.
    - destruct (String.eqb (ToLower (Ext p)) ".json"); [done|]. simpl.
      apply IH; [done|]. intros ?. apply Hwalk. by right. }
  by rewrite Hw.
Qed.

Lemma no_configs_no_registry_witness :
  loadEndpoints "conf" [Directory "conf"; File "conf/readme.md" Unreadable]
  = Refused (NoEndpoints "conf").
Proof.
  apply no_configs_no_registry.
  - vm_compute; reflexivity.
  - intros [H|[H|[]]]; discriminate.
Defined.

(** Every file of [configs] is loaded in a walk that gives a registry. *)
Lemma registry_configs_loaded dir entries eps :
  loadEndpoints dir entries = Loaded eps ->
  forall p f, In (p, f) (configs entries) ->
    exists ep, mustEndpointFromFile p f = Loaded ep.
Proof.
  unfold loadEndpoints.
  destruct (walk entries []) as [eps0|e|] eqn:Hw; [|done..].
  destruct (walk_configs _ _ _ Hw) as (loaded & _ & Hall). intros _ p f Hin.
  apply list_elem_of_In, list_elem_of_lookup in Hin as [i Hi].
  destruct (Forall2_lookup_l _ _ _ _ _ Hall Hi) as (ep & _ & Hm).
  by exists ep.
Qed.

(** A definition whose template has a wildcard before its last segment is
    not compiled, and no walk with its file in it gives a registry. *)
Theorem misplaced_wildcard_never_loads dir entries p def j s :
  In (p, Decoded def) (configs entries) ->
  Split (TrimPrefix (URI def) "/") "/" !! j = Some s ->
  HasPrefix s "*" = true ->
  j <> length (Split (TrimPrefix (URI def) "/") "/") - 1 ->
  compileURI (URI def) = Refused WildcardNotLast
  /\ forall eps, loadEndpoints dir entries <> Loaded eps.
Proof.
  intros Hin Hj Hs Hlast.
  pose proof (compileURI_misplaced _ _ _ Hj Hs Hlast) as Hre.
  split; [done|]. intros eps Hload.
  destruct (registry_configs_loaded dir entries eps Hload p (Decoded def) Hin)
    as (ep & Hm).
  destruct (mustEndpointFromFile_loaded _ _ _ Hm)
    as (def' & [= <-] & _ & _ & _ & _ & _ & _ & _ & _ & Hre').
  congruence.
Qed.

Lemma misplaced_wildcard_never_loads_witness :
  compileURI (URI midDef) = Refused WildcardNotLast
  /\ forall eps,
       loadEndpoints "conf" [File "conf/mid.json" (Decoded midDef)] <> Loaded eps.
Proof.
  apply (misplaced_wildcard_never_loads "conf" _ "conf/mid.json" midDef 1 "*rest").
  - vm_compute. by left.
  - vm_compute; reflexivity.
  - vm_compute; reflexivity.
  - vm_compute. discriminate.
Defined.

(** The script of an endpoint of a loaded registry is not empty. *)
Lemma loaded_script dir entries eps :
  loadEndpoints dir entries = Loaded eps ->
  forall ep, In ep eps -> Script ep <> [].
Proof.
  intros Hload ep Hin.
  destruct (loadEndpoints_loaded _ _ _ Hload) as (_ & _ & Hfiles).
  destruct (Hfiles ep Hin) as (p & f & _ & Hm).
  destruct (mustEndpointFromFile_loaded _ _ _ Hm)
    as (def & _ & _ & _ & Hscript & Hnil & _).
  by rewrite Hscript.
Qed.

(** ** [applyTemplate] *)

Lemma applyTemplate_length fuel tokens (params : gmap string string) out :
  applyTemplate fuel tokens params = Some (Ok out) -> length out = length tokens.
Proof.
  revert out. induction tokens as [|tok tokens IH]; intros out; simpl.
  - by intros [= <-].
  - destruct (expand fuel params tok tok) as [[res|e]|]; [|done..].
    destruct (applyTemplate fuel tokens params) as [[out'|e]|]; [|done..].
    intros [= <-]. simpl. f_equal. by apply IH.
Qed.

Lemma applyTemplate_unclosed fuel tokens (params : gmap string string) out :
  Exists unclosed tokens -> applyTemplate fuel tokens params <> Some (Ok out).
Proof.
  revert out. induction tokens as [|tok tokens IH]; intros out Hex.
  - by apply Exists_nil in Hex.
  - simpl. destruct (expand fuel params tok tok) as [[res|e]|] eqn:Hr; [|done..].
    apply Exists_cons in Hex as [Hun|Hex].
    + by destruct (expand_unclosed _ _ _ _ _ Hun Hr).
    + destruct (applyTemplate fuel tokens params) as [[out'|e]|] eqn:Hat; [|done..].
      by destruct (IH out' Hex).
Qed.

(** The expansion of a script has as many arguments as the script: whatever
    the values of the parameters, with spaces or quotes in them, no value
    adds an argument to the command or takes one away. *)
Theorem expansion_keeps_the_number_of_arguments fuel tokens
    (params : gmap string string) out :
  applyTemplate fuel tokens params = Some (Ok out) -> length out = length tokens.
Proof. apply applyTemplate_length. Qed.

Lemma expansion_keeps_the_number_of_arguments_witness :
  applyTemplate 2 ["echo"; "{msg}"] {[ "msg" := "a b; rm -rf /" ]}
  = Some (Ok ["echo"; "a b; rm -rf /"])
  /\ length ["echo"; "a b; rm -rf /"] = length ["echo"; "{msg}"].
Proof.
  assert (Hx : applyTemplate 2 ["echo"; "{msg}"] {[ "msg" := "a b; rm -rf /" ]}
               = Some (Ok ["echo"; "a b; rm -rf /"])) by (vm_compute; reflexivity).
  split; [exact Hx|].
  exact (expansion_keeps_the_number_of_arguments _ _ _ _ Hx).
Defined.

(** Arguments without ["{"] reach the command as the script has them,
    whatever the parameters of the request. *)
Theorem plain_arguments_pass_unchanged fuel tokens (params : gmap string string) :
  Forall (fun tok => Contains tok "{" = false) tokens ->
  applyTemplate (S fuel) tokens params = Some (Ok tokens).
Proof.
  induction 1 as [|tok tokens Htok Htokens IH]; [done|].
  cbn [applyTemplate]. by rewrite expand_done, IH.
Qed.

Lemma plain_arguments_pass_unchanged_witness :
  applyTemplate 1 ["ls"; "-l"; "/srv"] {[ "l" := "x" ]} = Some (Ok ["ls"; "-l"; "/srv"]).
Proof.
  apply plain_arguments_pass_unchanged. repeat constructor.
Defined.

(** With parameter values free of ["{"] and fuel above the number of ["{"]
    of every argument, the expansion succeeds exactly with the results of
    the substitution in one pass, argument by argument. *)
Theorem expansion_is_one_pass_on_plain_values fuel tokens
    (params : gmap string string) out :
  plainValues params ->
  Forall (fun tok => opens tok < fuel) tokens ->
  (applyTemplate fuel tokens params = Some (Ok out)
   <-> Forall2 (fun tok res => substituteOnce params tok = Some res) tokens out).
Proof.
  intros Hplain Hfuel. revert out.
  induction Hfuel as [|tok tokens Htok Hfuel IH]; intros out.
  - simpl. split.
    + intros [= <-]. constructor.
    + by intros ->%Forall2_nil_inv_l.
  - cbn [applyTemplate]. rewrite (expand_one_pass _ _ _ _ Hplain Htok).
    destruct (substituteOnce params tok) as [res|] eqn:Hres.
    + destruct (applyTemplate fuel tokens params) as [[out'|e]|] eqn:Hat.
      * split.
        -- intros [= <-]. constructor; [done|]. by apply IH.
        -- intros (res' & out'' & Hres' & Hall & ->)%Forall2_cons_inv_l.
           apply IH in Hall. simpl in Hres'. congruence.
      * split; [done|].
        intros (res' & out'' & _ & Hall & ->)%Forall2_cons_inv_l.
        by apply IH in Hall.
      * split; [done|].
        intros (res' & out'' & _ & Hall & ->)%Forall2_cons_inv_l.
        by apply IH in Hall.
    + split; [done|].
      intros (res' & out'' & Hres' & _)%Forall2_cons_inv_l.
      simpl in Hres'. congruence.
Qed.

Lemma expansion_is_one_pass_on_plain_values_witness :
  applyTemplate 2 ["echo"; "id={id}"] {[ "id" := "42" ]} = Some (Ok ["echo"; "id=42"]).
Proof.
  apply expansion_is_one_pass_on_plain_values.
  - intros k v [<- <-]%lookup_singleton_Some. reflexivity.
  - repeat constructor.
  - repeat constructor.
Defined.

(** A placeholder whose name the parameters do not have expands to the
    empty string, without error. *)
Theorem absent_name_expands_to_nothing fuel (params : gmap string string)
    pre name post :
  Contains pre "{" = false -> Contains name "}" = false ->
  Contains post "{" = false -> params !! name = None ->
  applyTemplate (S (S fuel)) [pre ++ String "{" (name ++ String "}" post)] params
  = Some (Ok [pre ++ post]).
Proof.
  intros Hpre Hname Hpost Habsent. cbn [applyTemplate].
  by rewrite (expand_absent_name _ _ _ _ _ _ Hpre Hname Hpost Habsent).
Qed.

Lemma absent_name_expands_to_nothing_witness :
  applyTemplate 2 ["id=" ++ String "{" ("id" ++ String "}" ";")] ∅ = Some (Ok ["id=" ++ ";"]).
Proof.
  by apply (absent_name_expands_to_nothing 0 ∅ "id=" "id" ";").
Defined.

(** ** The handler *)

Section DispatchFacts.
Context `{Formatting}.

(** What [WriteHeader] leaves as status: none after an informational
    response, the code otherwise. *)
Lemma WriteHeader_status code w w' :
  Status w = None -> WriteHeader code w = Some w' ->
  Status w' = None \/ Status w' = Some code.
Proof.
  unfold WriteHeader. intros ->.
  destruct (_ || _); [done|].
  destruct (_ && _); intros [= <-]; [by left|by right].
Qed.

Lemma WriteHeader_panic code w :
  Status w = None -> WriteHeader code w = None -> (code < 100 \/ 999 < code)%Z.
Proof.
  unfold WriteHeader. intros ->.
  destruct (code <? 100)%Z eqn:Hlow; [lia|].
  destruct (999 <? code)%Z eqn:Hhigh; [lia|]. simpl.
  by destruct (_ && _).
Qed.

(** On a loaded registry the handler does not panic on [argv[0]]: the
    script of an endpoint is not empty and its expansion is as long.  The
    one panic it can end in is that of [WriteHeader] on the error status of
    the endpoint, after a command that failed, where that status has not
    three digits. *)
Theorem panic_is_of_the_error_status (run : Cmd -> Execution)
    dir entries eps fuel r log :
  loadEndpoints dir entries = Loaded eps ->
  dispatch run eps fuel r = Panicked log ->
  exists ep pv cmd isDeadline,
    route eps r = Some (ep, pv)
    /\ log = [CallMergeParams; CallApplyTemplate; CallCombinedOutput cmd]
    /\ failure (run cmd) = Some isDeadline
    /\ (Error ep < 100 \/ 999 < Error ep)%Z.
Proof.
  intros Hload. unfold dispatch.
  destruct (route eps r) as [[ep pv]|] eqn:Hroute; [|done].
  destruct (negb _); [done|].
  destruct (applyTemplate fuel (Script ep) (mergeParams ep pv r))
    as [[[|argv0 argv]|e]|] eqn:Hat; try done.
  - apply applyTemplate_length in Hat.
    destruct (route_Some _ _ _ _ Hroute) as (i & Hi & _).
    apply list_elem_of_lookup_2, list_elem_of_In in Hi.
    destruct (loaded_script _ _ _ Hload ep Hi). by destruct (Script ep).
  - destruct (failure _) as [d|] eqn:Hfail; [|done].
    destruct (WriteHeader (Error ep) (newResponse r)) as [w|] eqn:Hw; [done|].
    intros [= <-]. eexists ep, pv, _, d. repeat split; [done|].
    by apply (WriteHeader_panic _ (newResponse r)).
Qed.

(** A script with an unclosed brace in one of its arguments is never run,
    whatever the request and its parameters. *)
Theorem unclosed_script_runs_no_command (run : Cmd -> Execution)
    eps fuel r ep pv :
  route eps r = Some (ep, pv) ->
  Exists unclosed (Script ep) ->
  commands (logOf (dispatch run eps fuel r)) = [].
Proof.
  intros Hroute Hex. unfold dispatch. rewrite Hroute.
  destruct (negb _); [done|].
  destruct (applyTemplate fuel (Script ep) (mergeParams ep pv r))
    as [[[|argv0 argv]|e]|] eqn:Hat; try done.
  by destruct (applyTemplate_unclosed _ _ _ _ Hex Hat).
Qed.

(** The handler runs at most one command, and only for a request that
    matched an endpoint and carried its token: the arguments of the
    command are the expansion of the script of that endpoint with the
    parameters of the request, its environment is the one [PATH] entry,
    and its deadline the timeout of the endpoint. *)
Theorem command_only_after_authentication (run : Cmd -> Execution)
    eps fuel r cmd :
  In cmd (commands (logOf (dispatch run eps fuel r))) ->
  commands (logOf (dispatch run eps fuel r)) = [cmd]
  /\ exists ep pv,
       route eps r = Some (ep, pv)
       /\ textproto.HeaderGet (Header r) (header ep) = token ep
       /\ applyTemplate fuel (Script ep) (mergeParams ep pv r) = Some (Ok (Args cmd))
       /\ Some (Name cmd) = head (Args cmd)
       /\ Env cmd = ["PATH=/usr/sbin:/usr/bin:/sbin:/bin"]
       /\ Deadline cmd = timeout ep.
Proof.
  unfold dispatch.
  destruct (route eps r) as [[ep pv]|] eqn:Hroute; [|done].
  destruct (String.eqb_spec (textproto.HeaderGet (Header r) (header ep)) (token ep))
    as [Hauth|]; [|done]. simpl negb. cbv iota.
  destruct (applyTemplate fuel (Script ep) (mergeParams ep pv r))
    as [[[|argv0 argv]|e]|] eqn:Hat; try done.
  destruct (failure _); [destruct (WriteHeader _ _)|]; simpl; intros [<-|[]];
    (split; [done|]; by exists ep, pv).
Qed.

(** The status of a response of the handler is 404, 401, 400 or 200, or the
    error status of an endpoint of the registry; and a response always has
    a status. *)
Theorem response_status_is_known (run : Cmd -> Execution) eps fuel r w log :
  dispatch run eps fuel r = Served w log ->
  Status w = Some 404%Z \/ Status w = Some 401%Z \/ Status w = Some 400%Z
  \/ Status w = Some 200%Z
  \/ exists ep, In ep eps /\ Status w = Some (Error ep).
Proof.
  unfold dispatch.
  destruct (route eps r) as [[ep pv]|] eqn:Hroute.
  2:{ intros [= <- <-]. by left. }
  destruct (negb _).
  { intros [= <- <-]. right. by left. }
  destruct (applyTemplate fuel (Script ep) (mergeParams ep pv r))
    as [[[|argv0 argv]|e]|]; try done.
  2:{ intros [= <- <-]. right. right. by left. }
  destruct (failure _) as [d|].
  - destruct (WriteHeader (Error ep) (newResponse r)) as [w'|] eqn:Hw; [|done].
    intros [= <- <-].
    assert (Hep : In ep eps).
    { destruct (route_Some _ _ _ _ Hroute) as (i & Hi & _).
      by apply list_elem_of_lookup_2, list_elem_of_In in Hi. }
    destruct (WriteHeader_status _ (newResponse r) _ eq_refl Hw) as [Hs|Hs];
      destruct (d || expired _); simpl; rewrite Hs; simpl.
    1,2: right; right; right; by left.
    all: right; right; right; right; by exists ep.
  - intros [= <- <-]. right. right. right. by left.
Qed.

(** A body that is absent, or holds no JSON value, or a JSON value other
    than an object, adds nothing to the parameters and is no error: the
    parameters are those of the query string, the path and the defaults. *)
Theorem unusable_body_is_ignored ep (pv : gmap string string) r :
  ReqBody r = None \/ ReqBody r = Some None
  \/ (exists v, ReqBody r = Some (Some v) /\ json.decodeMap v = None) ->
  mergeParams ep pv r
  = (textproto.first <$> URLQuery r) ∪ pv ∪ Body ep ∪ Query ep.
Proof.
  intros Hbody. apply map_eq. intros k.
  rewrite mergeParams_body_lookup.
  assert (Hfields : bodyFields r = ∅).
  { unfold bodyFields. by destruct Hbody as [->|[->|(v & -> & ->)]]. }
  rewrite Hfields, lookup_empty, !lookup_union, lookup_fmap.
  destruct (URLQuery r !! k), (pv !! k), (Body ep !! k), (Query ep !! k); done.
Qed.

End DispatchFacts.

(** ** The further statements at the samples *)

Lemma panic_is_of_the_error_status_witness :
  exists ep pv cmd isDeadline,
    route [statusEp "GET" 99] (statusReq "GET") = Some (ep, pv)
    /\ statusLog = [CallMergeParams; CallApplyTemplate; CallCombinedOutput cmd]
    /\ failure (prints "boom" (Some false) false cmd) = Some isDeadline
    /\ (Error ep < 100 \/ 999 < Error ep)%Z.
Proof.
  apply (@panic_is_of_the_error_status sampleFormatting
           (prints "boom" (Some false) false) "conf"
           [File "conf/s.json" (Decoded (statusDef "GET" 99))]
           [statusEp "GET" 99] 2 (statusReq "GET") statusLog).
  - vm_compute; reflexivity.
  - vm_compute; reflexivity.
Defined.

Lemma unclosed_script_runs_no_command_witness :
  commands (logOf (@dispatch sampleFormatting (prints "" None false) [loopEp] 5 loopReq))
  = [].
Proof.
  apply (@unclosed_script_runs_no_command sampleFormatting _ _ _ _ loopEp ∅).
  - vm_compute; reflexivity.
  - right. left. reflexivity.
Defined.

Lemma command_only_after_authentication_witness :
  commands (logOf (@dispatch sampleFormatting (prints "id=42" None false) [runEp] 2 runReq))
  = [runCmd]
  /\ exists ep pv,
       route [runEp] runReq = Some (ep, pv)
       /\ textproto.HeaderGet (Header runReq) (header ep) = token ep
       /\ applyTemplate 2 (Script ep) (@mergeParams sampleFormatting ep pv runReq)
          = Some (Ok (Args runCmd))
       /\ Some (Name runCmd) = head (Args runCmd)
       /\ Env runCmd = ["PATH=/usr/sbin:/usr/bin:/sbin:/bin"]
       /\ Deadline runCmd = timeout ep.
Proof.
  apply (@command_only_after_authentication sampleFormatting).
  vm_compute. by left.
Defined.

Lemma response_status_is_known_witness :
  exists w log,
    @dispatch sampleFormatting (prints "" (Some false) false) [runEp] 2 runReq
    = Served w log
    /\ (Status w = Some 404%Z \/ Status w = Some 401%Z \/ Status w = Some 400%Z
        \/ Status w = Some 200%Z
        \/ exists ep, In ep [runEp] /\ Status w = Some (Error ep)).
Proof.
  assert (Hd : exists w log,
            @dispatch sampleFormatting (prints "" (Some false) false) [runEp] 2 runReq
            = Served w log) by (vm_compute; by eexists _, _).
  destruct Hd as (w & log & Hd). exists w, log. split; [exact Hd|].
  exact (@response_status_is_known sampleFormatting _ _ _ _ _ _ Hd).
Defined.

Lemma unusable_body_is_ignored_witness :
  @mergeParams sampleFormatting runEp {[ "id" := "42" ]} arrayReq
  = (textproto.first <$> URLQuery arrayReq) ∪ {[ "id" := "42" ]} ∪ Body runEp ∪ Query runEp.
Proof.
  apply (@unusable_body_is_ignored sampleFormatting).
  right. right. by eexists.
Defined.

Lemma unclosed_brace_is_400_witness :
  exists w,
    @dispatch sampleFormatting (prints "" None false) [openEp] 2 runReq
    = Served w [CallMergeParams; CallApplyTemplate]
    /\ Status w = Some 400%Z.
Proof.
  apply (@unclosed_brace_is_400 sampleFormatting _ _ _ _ openEp {[ "id" := "42" ]}).
  - vm_compute; reflexivity.
  - vm_compute; reflexivity.
  - replace (@mergeParams sampleFormatting openEp {[ "id" := "42" ]} runReq)
      with ({[ "id" := "42" ]} : gmap string string) by (vm_compute; reflexivity).
    intros k v [<- <-]%lookup_singleton_Some. reflexivity.
  - repeat constructor.
  - right. left. reflexivity.
Defined.
